(** * CANReader: a shallow embedding of [src/CANReader/main.cpp]

    The program is a PolySync node that opens a CAN channel, polls it for
    frames and prints their identifier and payload size.  The node class
    [CANReaderNode] and [main] are embedded below; the PolySync SDK
    ([polysync::Node], [polysync::CANChannel], [polysync::DTCException]) is
    not part of the sources and enters as an environment [Env] that decides,
    from the history of the run, how each SDK call returns. *)

From Stdlib Require Import ZArith List String Ascii Bool Lia.
From Stdlib Require Import DecimalString HexadecimalString.
From Stdlib Require DecimalPos DecimalN.
From Stdlib Require Import Relations.
Import ListNotations.

Open Scope Z_scope.
Open Scope list_scope.

(** ** Machine integers *)

(** [uint] is 32 bits wide, [unsigned long] 64 bits (LP64). *)
Definition UINT_WIDTH : Z := 32.
Definition ULONG_WIDTH : Z := 64.
Definition ULONG_MAX : Z := 2 ^ ULONG_WIDTH - 1.

(** Implicit conversion [unsigned long -> uint]: reduction modulo [2^32]. *)
Definition to_uint (v : Z) : Z := v mod 2 ^ UINT_WIDTH.

(** ** SDK constants

    The headers that define these are not part of the sources; their values
    are parameters of the development. *)
Class PolySync : Type := {
  PSYNC_CAN_OPEN_ALLOW_VIRTUAL : Z;
  DATARATE_500K : Z;
  DTC_UNAVAILABLE : Z;
  (** whether [polysync::DTCException] derives from [std::exception] *)
  DTCException_is_std : bool
}.

(** [ps_node_state_kind], as far as the lifecycle of this node uses it. *)
Inductive ps_node_state_kind : Type :=
| NODE_STATE_INIT
| NODE_STATE_OK
| NODE_STATE_ERROR.

(** ** Exceptions *)

Inductive exception : Type :=
| std_invalid_argument (what : string)
| std_out_of_range (what : string)
| std_exception (what : string)          (* any other class derived from std::exception *)
| DTCException (dtc : Z) (what : string) (* polysync::DTCException *)
| foreign_exception.                     (* a thrown object not derived from std::exception *)

(** What a call into the SDK or the C++ library does: return or throw. *)
Inductive outcome (A : Type) : Type :=
| Returns (a : A)
| Throws (e : exception).
Arguments Returns {A} a.
Arguments Throws {A} e.

(** ** Data model *)

(** A non-null [polysync::CANChannel *]. *)
Definition handle : Type := positive.

(** What [CANChannel::read] leaves in the channel object: the fields
    [getInputFrameId] and [getInputFramePayloadSize] return, and the
    buffer [read] itself returns. *)
Record Frame : Type := {
  input_frame_id : Z;
  input_frame_payload_size : Z;
  buffer : list Z
}.

(** The private members of [CANReaderNode]; [_channel = None] is [nullptr]. *)
Record CANReaderNode : Type := {
  _channel : option handle;
  _channelID : Z;
  _flags : Z;
  _bitRate : Z
}.

(** Observable actions, in program order. *)
Inductive event : Type :=
| Cout (line : string)                        (* std::cout << ... << std::endl *)
| CANChannel_new (channelID flags : Z)        (* new polysync::CANChannel( id, flags ) *)
| CANChannel_setBitRate (h : handle) (rate : Z)
| CANChannel_goOnBus (h : handle)
| CANChannel_read (h : handle)
| CANChannel_goOffBus (h : handle)
| CANChannel_delete (h : handle)
| Node_new                                    (* polysync::Node base constructor *)
| Node_setNodeName (name : string)
| Node_activateFault (dtc : Z) (s : ps_node_state_kind)
| Node_disconnectPolySync.

(** The SDK and the outside world.  Every function receives the history of
    the run up to the call, so two calls of one operation may differ. *)
Record Env : Type := {
  env_new : list event -> Z -> Z -> outcome handle;
  env_setBitRate : list event -> handle -> Z -> outcome unit;
  env_goOnBus : list event -> handle -> outcome unit;
  env_read : list event -> handle -> outcome Frame;
  env_goOffBus : list event -> handle -> outcome unit;
  env_Node : outcome unit;
  env_setNodeName : list event -> string -> outcome unit;
  (** has the host seen SIGINT (or any other request to shut down)? *)
  env_sigint : list event -> bool
}.

(** Where the host's state machine stands. *)
Inductive phase : Type :=
| Active (s : ps_node_state_kind)   (* the handler of [s] is due *)
| Releasing                         (* disconnect requested, teardown due *)
| Finished                          (* released: connectPolySync returns *)
| Escaped (e : exception)           (* a handler let an exception escape *)
| Crashed.                          (* a handler ran into undefined behaviour *)

Record State : Type := {
  node : CANReaderNode;
  host : phase;
  trace : list event
}.

(** ** The effect monad of the handlers *)

Inductive Result (A : Type) : Type :=
| Normal (a : A)          (* the statement completes *)
| Raise (e : exception)   (* an exception propagates *)
| Undefined.              (* undefined behaviour: a null pointer is dereferenced *)
Arguments Normal {A} a.
Arguments Raise {A} e.
Arguments Undefined {A}.

Definition M (A : Type) : Type := State -> Result A * State.

Definition ret {A : Type} (a : A) : M A := fun st => (Normal a, st).

Definition bind {A B : Type} (m : M A) (k : A -> M B) : M B :=
  fun st =>
    match m st with
    | (Normal a, st') => k a st'
    | (Raise e, st') => (Raise e, st')
    | (Undefined, st') => (Undefined, st')
    end.

Notation "x <- m ;; k" := (bind m (fun x => k))
  (at level 61, m at next level, right associativity).
Notation "m ;; k" := (bind m (fun _ => k))
  (at level 61, right associativity).

Definition log (e : event) : M unit :=
  fun st => (Normal tt,
             {| node := node st; host := host st; trace := trace st ++ [e] |}).

Definition throw {A : Type} (e : exception) : M A := fun st => (Raise e, st).

Definition undefined {A : Type} : M A := fun st => (Undefined, st).

(** A call whose result the environment decides from the history so far; the
    call itself is then recorded. *)
Definition call {A : Type} (ev : event) (ask : list event -> outcome A) : M A :=
  fun st =>
    match ask (trace st) with
    | Returns a => (log ev ;; ret a) st
    | Throws e => (log ev ;; throw e) st
    end.

(** [try { body } catch( polysync::DTCException & exception ) { handler }] *)
Definition try_catch_DTC (body : M unit) (handler : Z -> string -> M unit) : M unit :=
  fun st =>
    match body st with
    | (Raise (DTCException dtc what), st') => handler dtc what st'
    | r => r
    end.

(** [std::cout << ... << std::endl] *)
Definition cout (line : string) : M unit := log (Cout line).

(** Reading and writing the member [_channel]. *)
Definition get_channel : M (option handle) := fun st => (Normal (_channel (node st)), st).

Definition set_channel (c : option handle) : M unit :=
  fun st => (Normal tt,
             {| node := {| _channel := c;
                           _channelID := _channelID (node st);
                           _flags := _flags (node st);
                           _bitRate := _bitRate (node st) |};
                host := host st;
                trace := trace st |}).

Definition get_node : M CANReaderNode := fun st => (Normal (node st), st).

(** [_channel->]: dereferencing the member; undefined on [nullptr]. *)
Definition deref_channel : M handle :=
  c <- get_channel ;;
  match c with
  | Some h => ret h
  | None => undefined
  end.

(** ** Formatting

    [operator<<] on an unsigned integer with the stream's default flags
    (nothing in the program sets [std::hex]) prints it in decimal. *)
Definition print_uint (v : Z) : string :=
  DecimalString.NilZero.string_of_uint (N.to_uint (Z.to_N v)).

(** The hexadecimal rendering the stream would produce under [std::hex]:
    lower-case digits, no prefix.  Not used by the program; the
    specification's wording is compared against it. *)
Definition print_hex (v : Z) : string :=
  HexadecimalString.NilZero.string_of_uint (N.to_hex_uint (Z.to_N v)).

Definition endl : string := String (ascii_of_nat 10) EmptyString.

(** The text standard output has received. *)
Fixpoint stdout (tr : list event) : string :=
  match tr with
  | [] => EmptyString
  | Cout line :: tr' => (line ++ endl ++ stdout tr')%string
  | _ :: tr' => stdout tr'
  end.

(** [contains needle hay]: [needle] occurs in [hay]. *)
Fixpoint contains (needle hay : string) : bool :=
  String.prefix needle hay ||
  match hay with
  | EmptyString => false
  | String _ hay' => contains needle hay'
  end.

(** ** The C++ library: [std::stoul]

    [std::stoul( str )] is [strtoul] in base 10: leading white space is
    skipped, one sign is accepted, the longest run of digits is converted
    and whatever follows is ignored.  No digit: [std::invalid_argument].
    A magnitude above [ULONG_MAX]: [std::out_of_range].  A minus sign
    negates the value in [unsigned long]. *)
Definition isspace (c : ascii) : bool :=
  let n := nat_of_ascii c in
  ((n =? 32) || ((9 <=? n) && (n <=? 13)))%nat.

Fixpoint skip_space (s : string) : string :=
  match s with
  | String c s' => if isspace c then skip_space s' else s
  | EmptyString => s
  end.

Definition digit (c : ascii) : option Z :=
  let n := Z.of_nat (nat_of_ascii c) in
  if (48 <=? n) && (n <=? 57) then Some (n - 48) else None.

(** The value of the longest prefix of digits; [acc = None] until a digit
    has been seen. *)
Fixpoint digits (s : string) (acc : option Z) : option Z :=
  match s with
  | String c s' =>
      match digit c with
      | Some d => digits s' (Some (10 * match acc with Some a => a | None => 0 end + d))
      | None => acc
      end
  | EmptyString => acc
  end.

Definition stoul (str : string) : outcome Z :=
  let s := skip_space str in
  let '(negative, s) :=
    match s with
    | String "-"%char s' => (true, s')
    | String "+"%char s' => (false, s')
    | _ => (false, s)
    end in
  match digits s None with
  | None => Throws (std_invalid_argument "stoul")
  | Some v =>
      if ULONG_MAX <? v then Throws (std_out_of_range "stoul")
      else Returns (if negative then (- v) mod 2 ^ ULONG_WIDTH else v)
  end.

(** An unsigned-integer numeral in the ordinary sense: one or more decimal
    digits and nothing else. *)
Fixpoint all_digits (s : string) : bool :=
  match s with
  | String c s' => match digit c with Some _ => all_digits s' | None => false end
  | EmptyString => true
  end.

Definition is_numeral (s : string) : bool :=
  match s with
  | EmptyString => false
  | _ => all_digits s
  end.

(** ** The node *)

Section CANReader.

Context {sdk : PolySync}.
Variable env : Env.

(** *** Calls into the SDK *)

Definition new_CANChannel (channelID flags : Z) : M handle :=
  call (CANChannel_new channelID flags) (fun tr => env_new env tr channelID flags).

Definition setBitRate (h : handle) (rate : Z) : M unit :=
  call (CANChannel_setBitRate h rate) (fun tr => env_setBitRate env tr h rate).

Definition goOnBus (h : handle) : M unit :=
  call (CANChannel_goOnBus h) (fun tr => env_goOnBus env tr h).

Definition read (h : handle) : M Frame :=
  call (CANChannel_read h) (fun tr => env_read env tr h).

Definition goOffBus (h : handle) : M unit :=
  call (CANChannel_goOffBus h) (fun tr => env_goOffBus env tr h).

(** [delete _channel] *)
Definition delete (h : handle) : M unit := log (CANChannel_delete h).

(** [_channel->getInputFrameId()] and [_channel->getInputFramePayloadSize()]
    are queries of the channel object: they return what the last [read]
    stored in it.  They are modelled as projections of the frame the read
    delivered: the two calls leave no event in the trace and are taken to
    return. *)
Definition getInputFrameId (f : Frame) : Z := input_frame_id f.
Definition getInputFramePayloadSize (f : Frame) : Z := input_frame_payload_size f.

Definition setNodeName (name : string) : M unit :=
  call (Node_setNodeName name) (fun tr => env_setNodeName env tr name).

(** Modelled from the spec: [polysync::Node::activateFault], which belongs
    to the host runtime.  The fault is forwarded to the host, which moves
    the node to the state named in the call (the source: "The
    NODE_STATE_ERROR will trigger call to errorStateEvent"). *)
Definition activateFault (dtc : Z) (s : ps_node_state_kind) : M unit :=
  fun st => (Normal tt,
             {| node := node st;
                host := Active s;
                trace := trace st ++ [Node_activateFault dtc s] |}).

(** Modelled from the spec: [polysync::Node::disconnectPolySync], which
    belongs to the host runtime: a request for a graceful disconnect, which
    triggers teardown. *)
Definition disconnectPolySync : M unit :=
  fun st => (Normal tt,
             {| node := node st;
                host := Releasing;
                trace := trace st ++ [Node_disconnectPolySync] |}).

(** *** [CANReaderNode] *)

(** The constructor, with the default member initializers. *)
Definition CANReaderNode_new (channelID : Z) : CANReaderNode :=
  {| _channel := None;
     _channelID := channelID;
     _flags := PSYNC_CAN_OPEN_ALLOW_VIRTUAL;
     _bitRate := DATARATE_500K |}.

(** [~CANReaderNode] *)
Definition CANReaderNode_delete : M unit :=
  c <- get_channel ;;
  match c with
  | Some _ =>
      h <- deref_channel ;;
      goOffBus h ;;
      h <- deref_channel ;;
      delete h ;;
      set_channel None
  | None => ret tt
  end.

Definition initStateEvent : M unit :=
  cout "CANReaderNode::initStateEvent()" ;;
  n <- get_node ;;
  h <- new_CANChannel (_channelID n) (_flags n) ;;
  set_channel (Some h) ;;
  try_catch_DTC
    (cout "before psync calls" ;;
     h <- deref_channel ;;
     n <- get_node ;;
     setBitRate h (_bitRate n) ;;
     h <- deref_channel ;;
     goOnBus h ;;
     cout "after psync calls")
    (fun dtc what =>
       cout "exception" ;;
       cout what ;;
       activateFault dtc NODE_STATE_ERROR).

Definition okStateEvent : M unit :=
  try_catch_DTC
    (h <- deref_channel ;;
     CANFrame <- read h ;;
     _ <- deref_channel ;;
     cout ("CAN frame - ID: 0x" ++ print_uint (getInputFrameId CANFrame))%string ;;
     _ <- deref_channel ;;
     cout ("DLC: " ++ print_uint (getInputFramePayloadSize CANFrame))%string)
    (fun dtc what =>
       if dtc =? DTC_UNAVAILABLE then ret tt
       else
         cout what ;;
         activateFault dtc NODE_STATE_ERROR).

Definition releaseStateEvent : M unit :=
  cout "CANReaderNode::releaseStateEvent()" ;;
  c <- get_channel ;;
  match c with
  | Some _ =>
      h <- deref_channel ;;
      goOffBus h ;;
      h <- deref_channel ;;
      delete h ;;
      set_channel None
  | None => ret tt
  end.

Definition errorStateEvent : M unit :=
  cout "CANReaderNode::errorStateEvent()" ;;
  disconnectPolySync.

(** *** The host's lifecycle *)

Definition set_host (p : phase) (st : State) : State :=
  {| node := node st; host := p; trace := trace st |}.

(** What the host does when a handler comes back: an escaped exception and
    undefined behaviour end the lifecycle. *)
Definition settle (r : Result unit * State) (next : State -> State) : State :=
  match r with
  | (Normal _, st') => next st'
  | (Raise e, st') => set_host (Escaped e) st'
  | (Undefined, st') => set_host Crashed st'
  end.

Definition terminal (p : phase) : bool :=
  match p with
  | Active _ | Releasing => false
  | Finished | Escaped _ | Crashed => true
  end.

(** Modelled from the spec: the lifecycle engine of [polysync::Node], an
    external runtime that is not part of the sources.  It calls
    [initStateEvent] once, then [okStateEvent] on every tick while the node
    is operational, [errorStateEvent] once a fault has moved the node to the
    error state, and [releaseStateEvent] once a disconnect was requested, by
    the node or by a signal. *)
Definition host_step (st : State) : State :=
  match host st with
  | Active NODE_STATE_INIT =>
      settle (initStateEvent st)
             (fun st' => match host st' with
                         | Active NODE_STATE_INIT => set_host (Active NODE_STATE_OK) st'
                         | _ => st'
                         end)
  | Active NODE_STATE_OK =>
      if env_sigint env (trace st) then set_host Releasing st
      else settle (okStateEvent st) (fun st' => st')
  | Active NODE_STATE_ERROR =>
      settle (errorStateEvent st) (fun st' => st')
  | Releasing =>
      settle (releaseStateEvent st) (set_host Finished)
  | Finished | Escaped _ | Crashed => st
  end.

(** The lifecycle step relation. *)
Inductive step : State -> State -> Prop :=
| step_host (st : State) :
    terminal (host st) = false -> step st (host_step st).

Definition reachable (st0 st : State) : Prop :=
  clos_refl_trans_n1 State step st0 st.

(** [n] steps of the lifecycle. *)
Fixpoint steps (n : nat) (st : State) : State :=
  match n with
  | O => st
  | S k => if terminal (host st) then st else steps k (host_step st)
  end.

(** [connectPolySync]: run the lifecycle until it ends.  [None]: still
    running when the fuel is used up. *)
Fixpoint connectPolySync (fuel : nat) (st : State) : option (Result unit * State) :=
  match host st with
  | Finished => Some (Normal tt, st)
  | Escaped e => Some (Raise e, st)
  | Crashed => Some (Undefined, st)
  | Active _ | Releasing =>
      match fuel with
      | O => None
      | S k => connectPolySync k (host_step st)
      end
  end.

(** *** [main] *)

Inductive exit_status : Type :=
| Exit (code : Z)   (* main returns *)
| Terminated        (* std::terminate: an exception nobody catches *)
| Crash.            (* undefined behaviour *)

(** [catch( std::exception & e )] matches the classes derived from
    [std::exception]. *)
Definition derives_std (e : exception) : bool :=
  match e with
  | std_invalid_argument _ | std_out_of_range _ | std_exception _ => true
  | DTCException _ _ => DTCException_is_std
  | foreign_exception => false
  end.

Definition invalid_argument_message : list event :=
  [Cout "Invalid argument. This example requires valid integer input representing a CAN channel.";
   Cout "For example: polysync-can-reader-cpp 1"].

Definition missing_argument_message : list event :=
  [Cout "Must pass CAN channel argument.";
   Cout "For example: polysync-can-reader-cpp 1"].

(** How the try block of [main] ends, once [canReader] is out of scope. *)
Definition main_catch (r : Result unit) (tr : list event) : exit_status * list event :=
  match r with
  | Normal _ => (Exit 0, tr)
  | Raise e =>
      if derives_std e then (Exit 1, tr ++ invalid_argument_message)
      else (Terminated, tr)
  | Undefined => (Crash, tr)
  end.

(** Leaving the scope of [canReader], normally or while the stack unwinds
    towards the catch clause: its destructor runs first.  A destructor is
    [noexcept]: an exception that leaves it ends the program.  An exception
    no clause matches ends the program where it is thrown, the stack is not
    unwound. *)
Definition leave_scope (r : Result unit) (st : State) : exit_status * list event :=
  let destroyed :=
    match CANReaderNode_delete st with
    | (Normal _, st') => main_catch r (trace st')
    | (Raise _, st') => (Terminated, trace st')
    | (Undefined, st') => (Crash, trace st')
    end in
  match r with
  | Normal _ => destroyed
  | Raise e => if derives_std e then destroyed else (Terminated, trace st)
  | Undefined => (Crash, trace st)
  end.

(** The state of the run when [canReader] has been constructed. *)
Definition constructed (channelID : Z) : State :=
  {| node := CANReaderNode_new channelID;
     host := Active NODE_STATE_INIT;
     trace := [Node_new] |}.

(** The try block of [main], for the argument [arg = argv[ 1 ]]. *)
Definition main_try (fuel : nat) (arg : string) : option (exit_status * list event) :=
  match stoul arg with
  | Throws e => Some (main_catch (Raise e) [])
  | Returns v =>
      match env_Node env with
      | Throws e => Some (main_catch (Raise e) [Node_new])
      | Returns _ =>
          match setNodeName "polysync-can-reader-cpp" (constructed (to_uint v)) with
          | (Normal _, st1) =>
              match connectPolySync fuel st1 with
              | Some (r, st2) => Some (leave_scope r st2)
              | None => None
              end
          | (r, st1) => Some (leave_scope r st1)
          end
      end
  end.

(** [main( argc, argv )] with [argc = length argv].  [None]: the node is
    still running when the fuel is used up. *)
Definition main (fuel : nat) (argv : list string) : option (exit_status * list event) :=
  if 1 <? Z.of_nat (List.length argv) then
    main_try fuel (nth 1 argv EmptyString)
  else
    Some (Exit 1, missing_argument_message).

End CANReader.

(** ** Concrete environments

    A simulated SDK for running the program: the constants get arbitrary
    distinct values, and a script fixes how the channel answers. *)
Definition sim_sdk : PolySync :=
  {| PSYNC_CAN_OPEN_ALLOW_VIRTUAL := 1;
     DATARATE_500K := 500;
     DTC_UNAVAILABLE := 6;
     DTCException_is_std := true |}.

Definition is_read (e : event) : bool :=
  match e with
  | CANChannel_read _ => true
  | _ => false
  end.

Definition reads_so_far (tr : list event) : nat :=
  List.length (filter is_read tr).

Definition unavailable : exception := DTCException 6 "DTC_UNAVAILABLE".

(** The channel opens as [opened], takes the bit rate as [rated], goes on
    bus as [on_bus], answers the [k]-th read with the [k]-th entry of
    [answers] (and with "no data" afterwards), goes off bus as [off_bus];
    the host is interrupted once [List.length answers] reads were made. *)
Definition script (opened : outcome handle) (rated on_bus : outcome unit)
    (answers : list (outcome Frame)) (off_bus : outcome unit) : Env :=
  {| env_new := fun _ _ _ => opened;
     env_setBitRate := fun _ _ _ => rated;
     env_goOnBus := fun _ _ => on_bus;
     env_read := fun tr _ => nth (reads_so_far tr) answers (Throws unavailable);
     env_goOffBus := fun _ _ => off_bus;
     env_Node := Returns tt;
     env_setNodeName := fun _ _ => Returns tt;
     env_sigint := fun tr => (List.length answers <=? reads_so_far tr)%nat |}.

(** A bus on which nothing ever arrives, under a host nobody interrupts. *)
Definition silent_bus : Env :=
  {| env_new := fun _ _ _ => Returns 1%positive;
     env_setBitRate := fun _ _ _ => Returns tt;
     env_goOnBus := fun _ _ => Returns tt;
     env_read := fun _ _ => Throws unavailable;
     env_goOffBus := fun _ _ => Returns tt;
     env_Node := Returns tt;
     env_setNodeName := fun _ _ => Returns tt;
     env_sigint := fun _ => false |}.

(** A node that holds the channel [1] and is being polled. *)
Definition polling : State :=
  {| node := {| _channel := Some 1%positive; _channelID := 3; _flags := 1; _bitRate := 500 |};
     host := Active NODE_STATE_OK;
     trace := [] |}.

(** The same node after teardown. *)
Definition released : State :=
  {| node := {| _channel := None; _channelID := 3; _flags := 1; _bitRate := 500 |};
     host := Finished;
     trace := [] |}.

Definition done : outcome unit := Returns tt.

Definition frame_0x123 : Frame :=
  {| input_frame_id := 0x123; input_frame_payload_size := 4; buffer := [1; 2; 3; 4] |}.

(** One frame arrives, then the host is interrupted. *)
Definition one_frame : Env :=
  script (Returns 1%positive) done done [Returns frame_0x123] done.

(** The first read fails with a diagnostic other than "no data". *)
Definition bus_off : Env :=
  script (Returns 1%positive) done done [Throws (DTCException 9 "bus off")] done.

(** The channel cannot be allocated. *)
Definition no_hardware : Env :=
  script (Throws (DTCException 9 "no hardware")) done done [] done.

(** The channel is allocated but refuses the bit rate. *)
Definition bad_bit_rate : Env :=
  script (Returns 1%positive) (Throws (DTCException 9 "bit rate")) done [] done.

(** The read fails with an exception that is no diagnostic. *)
Definition broken_read : Env :=
  script (Returns 1%positive) done done [Throws (std_exception "read")] done.

(** The bit rate is refused with an exception that is no diagnostic. *)
Definition broken_bit_rate : Env :=
  script (Returns 1%positive) (Throws (std_exception "rate")) done [] done.

Definition is_off_bus (e : event) : bool :=
  match e with
  | CANChannel_goOffBus _ => true
  | _ => false
  end.

(** The channel goes off bus at the second attempt only. *)
Definition sticky_bus : Env :=
  {| env_new := fun _ _ _ => Returns 1%positive;
     env_setBitRate := fun _ _ _ => Returns tt;
     env_goOnBus := fun _ _ => Returns tt;
     env_read := fun _ _ => Throws unavailable;
     env_goOffBus := fun tr _ =>
       if existsb is_off_bus tr then Returns tt
       else Throws (DTCException 9 "busy");
     env_Node := Returns tt;
     env_setNodeName := fun _ _ => Returns tt;
     env_sigint := fun _ => true |}.

(** The channel never goes off bus, and the host is interrupted as soon as
    the node runs. *)
Definition stuck_bus : Env :=
  {| env_new := fun _ _ _ => Returns 1%positive;
     env_setBitRate := fun _ _ _ => Returns tt;
     env_goOnBus := fun _ _ => Returns tt;
     env_read := fun _ _ => Throws unavailable;
     env_goOffBus := fun _ _ => Throws (std_exception "bus stuck");
     env_Node := Returns tt;
     env_setNodeName := fun _ _ => Returns tt;
     env_sigint := fun _ => true |}.

(** The trace of the program on channel 3 of the bus [one_frame]. *)
Definition one_frame_trace : list event :=
  [Node_new; Node_setNodeName "polysync-can-reader-cpp";
   Cout "CANReaderNode::initStateEvent()"; CANChannel_new 3 1;
   Cout "before psync calls"; CANChannel_setBitRate 1%positive 500;
   CANChannel_goOnBus 1%positive; Cout "after psync calls";
   CANChannel_read 1%positive;
   Cout "CAN frame - ID: 0x291"; Cout "DLC: 4";
   Cout "CANReaderNode::releaseStateEvent()";
   CANChannel_goOffBus 1%positive; CANChannel_delete 1%positive].

(** ** Vocabulary of the properties *)

Definition is_open (e : event) : bool :=
  match e with
  | CANChannel_new _ _ => true
  | _ => false
  end.

Definition is_fault (e : event) : bool :=
  match e with
  | Node_activateFault _ _ => true
  | _ => false
  end.

(** The state with [evs] appended to the trace, all else equal. *)
Definition emit (evs : list event) (st : State) : State :=
  {| node := node st; host := host st; trace := trace st ++ evs |}.

(** The state with the member [_channel] assigned. *)
Definition with_channel (c : option handle) (st : State) : State :=
  {| node := {| _channel := c;
                _channelID := _channelID (node st);
                _flags := _flags (node st);
                _bitRate := _bitRate (node st) |};
     host := host st;
     trace := trace st |}.

(** The state in which [connectPolySync] starts the lifecycle: the node is
    constructed for [channelID] and named. *)
Definition started {sdk : PolySync} (channelID : Z) : State :=
  {| node := CANReaderNode_new channelID;
     host := Active NODE_STATE_INIT;
     trace := [Node_new; Node_setNodeName "polysync-can-reader-cpp"] |}.

(** The handle is held exactly while the host has the node between
    initialization and teardown. *)
Definition handle_invariant (st : State) : Prop :=
  match host st with
  | Active NODE_STATE_INIT => _channel (node st) = None
  | Active NODE_STATE_OK | Active NODE_STATE_ERROR | Releasing =>
      _channel (node st) <> None
  | Finished => _channel (node st) = None
  | Escaped _ => True
  | Crashed => False
  end.

Definition is_delete (e : event) : bool :=
  match e with
  | CANChannel_delete _ => true
  | _ => false
  end.

(** Every [setBitRate] in the trace asks for [DATARATE_500K]. *)
Definition rate_ok {sdk : PolySync} (e : event) : bool :=
  match e with
  | CANChannel_setBitRate _ rate => rate =? DATARATE_500K
  | _ => true
  end.

(** How [initStateEvent] begins for the channel [channelID]. *)
Definition init_prefix {sdk : PolySync} (channelID : Z) : list event :=
  [Cout "CANReaderNode::initStateEvent()";
   CANChannel_new channelID PSYNC_CAN_OPEN_ALLOW_VIRTUAL].

(** What holds of every state of the lifecycle of a node constructed for
    [channelID]. *)
Definition lifecycle_invariant {sdk : PolySync} (channelID : Z) (st : State) : Prop :=
  _channelID (node st) = channelID /\
  _flags (node st) = PSYNC_CAN_OPEN_ALLOW_VIRTUAL /\
  _bitRate (node st) = DATARATE_500K /\
  handle_invariant st /\
  match host st with
  | Active NODE_STATE_INIT => trace st = trace (started channelID)
  | _ =>
      exists rest,
        trace st = trace (started channelID) ++ init_prefix channelID ++ rest /\
        filter is_open rest = [] /\
        forallb rate_ok rest = true /\
        (_channel (node st) <> None -> filter is_delete rest = [])
  end.

(** The lifecycle has stopped polling: the node is in the error state, in
    teardown, or gone. *)
Definition past_polling (p : phase) : bool :=
  match p with
  | Active NODE_STATE_INIT | Active NODE_STATE_OK => false
  | _ => true
  end.

(** The value of a decimal numeral read from its most significant digit,
    continuing from [acc]. *)
Fixpoint uint_value (d : Decimal.uint) (acc : Z) : Z :=
  match d with
  | Decimal.Nil => acc
  | Decimal.D0 d' => uint_value d' (10 * acc + 0)
  | Decimal.D1 d' => uint_value d' (10 * acc + 1)
  | Decimal.D2 d' => uint_value d' (10 * acc + 2)
  | Decimal.D3 d' => uint_value d' (10 * acc + 3)
  | Decimal.D4 d' => uint_value d' (10 * acc + 4)
  | Decimal.D5 d' => uint_value d' (10 * acc + 5)
  | Decimal.D6 d' => uint_value d' (10 * acc + 6)
  | Decimal.D7 d' => uint_value d' (10 * acc + 7)
  | Decimal.D8 d' => uint_value d' (10 * acc + 8)
  | Decimal.D9 d' => uint_value d' (10 * acc + 9)
  end.

(** White space only. *)
Fixpoint all_space (s : string) : bool :=
  match s with
  | String c s' => isspace c && all_space s'
  | EmptyString => true
  end.

(** The text does not go on with a digit. *)
Definition stops_digits (s : string) : bool :=
  match s with
  | String c _ => match digit c with Some _ => false | None => true end
  | EmptyString => true
  end.

(** Calls on the channel object, its allocation included. *)
Definition is_channel_op (e : event) : bool :=
  match e with
  | CANChannel_new _ _ | CANChannel_setBitRate _ _ | CANChannel_goOnBus _
  | CANChannel_read _ | CANChannel_goOffBus _ | CANChannel_delete _ => true
  | _ => false
  end.

(** Calls that allocate, configure or release a channel: all the recorded
    calls on a channel but the read. *)
Definition is_channel_change (e : event) : bool :=
  match e with
  | CANChannel_new _ _ | CANChannel_setBitRate _ _ | CANChannel_goOnBus _
  | CANChannel_goOffBus _ | CANChannel_delete _ => true
  | _ => false
  end.

(** The member functions of [CANReaderNode] a host or [main] may invoke. *)
Inductive handler : Type :=
| InitStateEvent
| OkStateEvent
| ErrorStateEvent
| ReleaseStateEvent
| Destructor.

Definition invoke {sdk : PolySync} (env : Env) (f : handler) : M unit :=
  match f with
  | InitStateEvent => initStateEvent env
  | OkStateEvent => okStateEvent env
  | ErrorStateEvent => errorStateEvent
  | ReleaseStateEvent => releaseStateEvent env
  | Destructor => CANReaderNode_delete env
  end.

(** The member functions invoked one after the other, in any order a
    caller may choose, until one does not return. *)
Fixpoint schedule {sdk : PolySync} (env : Env) (fs : list handler) : M unit :=
  match fs with
  | [] => ret tt
  | f :: fs' => invoke env f ;; schedule env fs'
  end.

(** The members the constructor fixes. *)
Definition configuration (n : CANReaderNode) : Z * Z * Z :=
  (_channelID n, _flags n, _bitRate n).

(** The event hands the SDK only what the node [n] is configured with. *)
Definition uses_configuration (n : CANReaderNode) (e : event) : bool :=
  match e with
  | CANChannel_new channelID flags => (channelID =? _channelID n) && (flags =? _flags n)
  | CANChannel_setBitRate _ rate => rate =? _bitRate n
  | _ => true
  end.

(** What [okStateEvent] adds to the trace for a frame it has read. *)
Definition frame_events (h : handle) (f : Frame) : list event :=
  [CANChannel_read h;
   Cout ("CAN frame - ID: 0x" ++ print_uint (input_frame_id f));
   Cout ("DLC: " ++ print_uint (input_frame_payload_size f))].

(** Faults in the lifecycle: none while the node is initializing or
    running, one from the moment it is in the error state. *)
Definition fault_invariant (st : State) : Prop :=
  (past_polling (host st) = false -> filter is_fault (trace st) = []) /\
  (List.length (filter is_fault (trace st)) <= 1)%nat /\
  (host st = Active NODE_STATE_ERROR ->
   List.length (filter is_fault (trace st)) = 1%nat).

(** Deleting in the lifecycle: nothing is deleted before the teardown has
    completed, and a completed teardown ends with going off bus and the
    delete, the first of the run. *)
Definition teardown_invariant (st : State) : Prop :=
  match host st with
  | Finished =>
      _channel (node st) = None /\
      exists pre h,
        trace st = pre ++ [Cout "CANReaderNode::releaseStateEvent()";
                           CANChannel_goOffBus h; CANChannel_delete h] /\
        filter is_delete pre = []
  | _ => filter is_delete (trace st) = []
  end.

(** The trace deletes at most one channel, straight after taking it off
    the bus, and makes no call on a channel afterwards. *)
Definition releases_safely (tr : list event) : Prop :=
  filter is_delete tr = [] \/
  exists pre h post,
    tr = pre ++ [CANChannel_goOffBus h; CANChannel_delete h] ++ post /\
    filter is_delete pre = [] /\
    filter is_channel_op post = [].

(** What the exit status of [main] says about the trace: 0 after a
    completed teardown, 1 after one of the two usage messages. *)
Definition exit_report (ex : exit_status) (tr : list event) : Prop :=
  match ex with
  | Exit code =>
      (code = 0 /\
       exists pre h,
         tr = pre ++ [Cout "CANReaderNode::releaseStateEvent()";
                      CANChannel_goOffBus h; CANChannel_delete h]) \/
      (code = 1 /\
       exists pre first,
         tr = pre ++ [Cout first; Cout "For example: polysync-can-reader-cpp 1"] /\
         (first = "Must pass CAN channel argument."%string \/
          first = "Invalid argument. This example requires valid integer input representing a CAN channel."%string))
  | _ => True
  end.

(** A bus that delivers [frames] one per poll to the channel [h], under a
    host that is interrupted once they are read; every other call
    returns. *)
Definition replay (h : handle) (frames : list Frame) : Env :=
  script (Returns h) done done (map Returns frames) done.

(** ** Properties *)

(** Unfolding the handlers, and deciding the calls into the SDK case by
    case. *)
Ltac run :=
  unfold initStateEvent, okStateEvent, releaseStateEvent, errorStateEvent,
    CANReaderNode_delete, try_catch_DTC, new_CANChannel, setBitRate, goOnBus,
    read, goOffBus, delete, setNodeName, activateFault, disconnectPolySync,
    deref_channel, call, cout, get_channel, set_channel, get_node, throw,
    undefined, log, bind, ret, emit, with_channel;
  simpl.

Ltac tidy := rewrite <- ?app_assoc; simpl; try reflexivity.

Ltac answer H1 H2 H3 :=
  run; repeat (rewrite <- ?app_assoc; simpl;
               first [rewrite H1 | rewrite H2 | rewrite H3]; simpl);
  rewrite <- ?app_assoc; simpl.

Ltac crunch :=
  repeat (simpl;
    match goal with
    | |- context [match env_new ?e ?t ?a ?b with _ => _ end] =>
        destruct (env_new e t a b) as [?h|?e] eqn:?
    | |- context [match env_setBitRate ?e ?t ?a ?b with _ => _ end] =>
        destruct (env_setBitRate e t a b) as [[]|?e] eqn:?
    | |- context [match env_goOnBus ?e ?t ?a with _ => _ end] =>
        destruct (env_goOnBus e t a) as [[]|?e] eqn:?
    | |- context [match env_read ?e ?t ?a with _ => _ end] =>
        destruct (env_read e t a) as [?f|?e] eqn:?
    | |- context [match env_goOffBus ?e ?t ?a with _ => _ end] =>
        destruct (env_goOffBus e t a) as [[]|?e] eqn:?
    | |- context [match ?x with std_invalid_argument _ => _ | _ => _ end] =>
        is_var x; destruct x
    | |- context [if ?b then _ else _] => destruct b eqn:?
    | H : _channel (node ?st) = _ |- context [_channel (node ?st)] =>
        rewrite H
    end).

Ltac extend_trace Htr :=
  eexists; split;
  [ rewrite Htr; rewrite <- ?app_assoc; simpl; reflexivity
  | rewrite ?filter_app, ?forallb_app; simpl; rewrite ?Z.eqb_refl; simpl ].

Section Handlers.

Context {sdk : PolySync}.
Variable env : Env.

(** *** [releaseStateEvent] *)

Lemma releaseStateEvent_null (st : State) :
  _channel (node st) = None ->
  releaseStateEvent env st
  = (Normal tt, emit [Cout "CANReaderNode::releaseStateEvent()"] st).
Proof.
  intros Hnull. run. rewrite Hnull. reflexivity.
Qed.

Lemma releaseStateEvent_held (st : State) (h : handle) :
  _channel (node st) = Some h ->
  env_goOffBus env (trace st ++ [Cout "CANReaderNode::releaseStateEvent()"]) h
  = Returns tt ->
  releaseStateEvent env st
  = (Normal tt,
     with_channel None
       (emit [Cout "CANReaderNode::releaseStateEvent()";
              CANChannel_goOffBus h; CANChannel_delete h] st)).
Proof.
  intros Hheld Hoff. run. repeat (first [rewrite Hheld | rewrite Hoff]; simpl).
  tidy.
Qed.

Lemma releaseStateEvent_off_bus_throws (st : State) (h : handle) (e : exception) :
  _channel (node st) = Some h ->
  env_goOffBus env (trace st ++ [Cout "CANReaderNode::releaseStateEvent()"]) h
  = Throws e ->
  releaseStateEvent env st
  = (Raise e,
     emit [Cout "CANReaderNode::releaseStateEvent()"; CANChannel_goOffBus h] st).
Proof.
  intros Hheld Hoff. run. repeat (first [rewrite Hheld | rewrite Hoff]; simpl).
  tidy.
Qed.

Lemma releaseStateEvent_clears (st st' : State) :
  releaseStateEvent env st = (Normal tt, st') -> _channel (node st') = None.
Proof.
  destruct (_channel (node st)) as [h|] eqn:Hc.
  - destruct (env_goOffBus env (trace st ++ [Cout "CANReaderNode::releaseStateEvent()"]) h)
      as [[]|e] eqn:Hoff.
    + rewrite (releaseStateEvent_held st h Hc Hoff). intros [= <-]. reflexivity.
    + rewrite (releaseStateEvent_off_bus_throws st h e Hc Hoff). discriminate.
  - rewrite (releaseStateEvent_null st Hc). intros [= <-]. exact Hc.
Qed.

(** *** [~CANReaderNode] *)

Lemma CANReaderNode_delete_null (st : State) :
  _channel (node st) = None ->
  CANReaderNode_delete env st = (Normal tt, st).
Proof.
  intros Hnull. run. rewrite Hnull. reflexivity.
Qed.

Lemma CANReaderNode_delete_held (st : State) (h : handle) :
  _channel (node st) = Some h ->
  env_goOffBus env (trace st) h = Returns tt ->
  CANReaderNode_delete env st
  = (Normal tt,
     with_channel None (emit [CANChannel_goOffBus h; CANChannel_delete h] st)).
Proof.
  intros Hheld Hoff. run. repeat (first [rewrite Hheld | rewrite Hoff]; simpl).
  tidy.
Qed.

Lemma CANReaderNode_delete_off_bus_throws (st : State) (h : handle) (e : exception) :
  _channel (node st) = Some h ->
  env_goOffBus env (trace st) h = Throws e ->
  CANReaderNode_delete env st = (Raise e, emit [CANChannel_goOffBus h] st).
Proof.
  intros Hheld Hoff. run. repeat (first [rewrite Hheld | rewrite Hoff]; simpl).
  reflexivity.
Qed.

(** *** [okStateEvent] *)

Lemma okStateEvent_null (st : State) :
  _channel (node st) = None ->
  okStateEvent env st = (Undefined, st).
Proof.
  intros Hnull. run. rewrite Hnull. reflexivity.
Qed.

Lemma okStateEvent_frame (st : State) (h : handle) (f : Frame) :
  _channel (node st) = Some h ->
  env_read env (trace st) h = Returns f ->
  okStateEvent env st
  = (Normal tt,
     emit [CANChannel_read h;
           Cout ("CAN frame - ID: 0x" ++ print_uint (input_frame_id f));
           Cout ("DLC: " ++ print_uint (input_frame_payload_size f))] st).
Proof.
  intros Hheld Hread. run. repeat (first [rewrite Hheld | rewrite Hread]; simpl).
  tidy.
Qed.

Lemma okStateEvent_unavailable (st : State) (h : handle) (what : string) :
  _channel (node st) = Some h ->
  env_read env (trace st) h = Throws (DTCException DTC_UNAVAILABLE what) ->
  okStateEvent env st = (Normal tt, emit [CANChannel_read h] st).
Proof.
  intros Hheld Hread. run. repeat (first [rewrite Hheld | rewrite Hread]; simpl).
  rewrite Z.eqb_refl. reflexivity.
Qed.

Lemma okStateEvent_fault (st : State) (h : handle) (dtc : Z) (what : string) :
  _channel (node st) = Some h ->
  env_read env (trace st) h = Throws (DTCException dtc what) ->
  dtc <> DTC_UNAVAILABLE ->
  okStateEvent env st
  = (Normal tt,
     set_host (Active NODE_STATE_ERROR)
       (emit [CANChannel_read h; Cout what;
              Node_activateFault dtc NODE_STATE_ERROR] st)).
Proof.
  intros Hheld Hread Hdtc. run.
  repeat (first [rewrite Hheld | rewrite Hread]; simpl).
  apply Z.eqb_neq in Hdtc. rewrite Hdtc. unfold set_host. simpl. tidy.
Qed.

Lemma okStateEvent_escapes (st : State) (h : handle) (e : exception) :
  _channel (node st) = Some h ->
  env_read env (trace st) h = Throws e ->
  (forall dtc what, e <> DTCException dtc what) ->
  okStateEvent env st = (Raise e, emit [CANChannel_read h] st).
Proof.
  intros Hheld Hread Hother. run.
  repeat (first [rewrite Hheld | rewrite Hread]; simpl).
  destruct e; try reflexivity. now destruct (Hother dtc what).
Qed.

(** *** [initStateEvent] *)

Lemma initStateEvent_new_throws (st : State) (e : exception) :
  env_new env (trace st ++ [Cout "CANReaderNode::initStateEvent()"])
    (_channelID (node st)) (_flags (node st)) = Throws e ->
  initStateEvent env st
  = (Raise e,
     emit [Cout "CANReaderNode::initStateEvent()";
           CANChannel_new (_channelID (node st)) (_flags (node st))] st).
Proof.
  intros Hnew. answer Hnew Hnew Hnew.
  destruct e; reflexivity.
Qed.

Lemma initStateEvent_on_bus (st : State) (h : handle) :
  env_new env (trace st ++ [Cout "CANReaderNode::initStateEvent()"])
    (_channelID (node st)) (_flags (node st)) = Returns h ->
  env_setBitRate env
    (trace st ++ [Cout "CANReaderNode::initStateEvent()";
                  CANChannel_new (_channelID (node st)) (_flags (node st));
                  Cout "before psync calls"])
    h (_bitRate (node st)) = Returns tt ->
  env_goOnBus env
    (trace st ++ [Cout "CANReaderNode::initStateEvent()";
                  CANChannel_new (_channelID (node st)) (_flags (node st));
                  Cout "before psync calls";
                  CANChannel_setBitRate h (_bitRate (node st))])
    h = Returns tt ->
  initStateEvent env st
  = (Normal tt,
     with_channel (Some h)
       (emit [Cout "CANReaderNode::initStateEvent()";
              CANChannel_new (_channelID (node st)) (_flags (node st));
              Cout "before psync calls";
              CANChannel_setBitRate h (_bitRate (node st));
              CANChannel_goOnBus h;
              Cout "after psync calls"] st)).
Proof.
  intros Hnew Hrate Hbus. answer Hnew Hrate Hbus. reflexivity.
Qed.

Lemma initStateEvent_bit_rate_fault (st : State) (h : handle) (dtc : Z) (what : string) :
  env_new env (trace st ++ [Cout "CANReaderNode::initStateEvent()"])
    (_channelID (node st)) (_flags (node st)) = Returns h ->
  env_setBitRate env
    (trace st ++ [Cout "CANReaderNode::initStateEvent()";
                  CANChannel_new (_channelID (node st)) (_flags (node st));
                  Cout "before psync calls"])
    h (_bitRate (node st)) = Throws (DTCException dtc what) ->
  initStateEvent env st
  = (Normal tt,
     set_host (Active NODE_STATE_ERROR)
       (with_channel (Some h)
          (emit [Cout "CANReaderNode::initStateEvent()";
                 CANChannel_new (_channelID (node st)) (_flags (node st));
                 Cout "before psync calls";
                 CANChannel_setBitRate h (_bitRate (node st));
                 Cout "exception";
                 Cout what;
                 Node_activateFault dtc NODE_STATE_ERROR] st))).
Proof.
  intros Hnew Hrate. answer Hnew Hrate Hrate. reflexivity.
Qed.

Lemma initStateEvent_on_bus_fault (st : State) (h : handle) (dtc : Z) (what : string) :
  env_new env (trace st ++ [Cout "CANReaderNode::initStateEvent()"])
    (_channelID (node st)) (_flags (node st)) = Returns h ->
  env_setBitRate env
    (trace st ++ [Cout "CANReaderNode::initStateEvent()";
                  CANChannel_new (_channelID (node st)) (_flags (node st));
                  Cout "before psync calls"])
    h (_bitRate (node st)) = Returns tt ->
  env_goOnBus env
    (trace st ++ [Cout "CANReaderNode::initStateEvent()";
                  CANChannel_new (_channelID (node st)) (_flags (node st));
                  Cout "before psync calls";
                  CANChannel_setBitRate h (_bitRate (node st))])
    h = Throws (DTCException dtc what) ->
  initStateEvent env st
  = (Normal tt,
     set_host (Active NODE_STATE_ERROR)
       (with_channel (Some h)
          (emit [Cout "CANReaderNode::initStateEvent()";
                 CANChannel_new (_channelID (node st)) (_flags (node st));
                 Cout "before psync calls";
                 CANChannel_setBitRate h (_bitRate (node st));
                 CANChannel_goOnBus h;
                 Cout "exception";
                 Cout what;
                 Node_activateFault dtc NODE_STATE_ERROR] st))).
Proof.
  intros Hnew Hrate Hbus. answer Hnew Hrate Hbus. reflexivity.
Qed.

(** *** Invariants of the lifecycle *)

Lemma started_invariant (c : Z) : lifecycle_invariant c (started c).
Proof.
  unfold lifecycle_invariant, handle_invariant, started. simpl. tauto.
Qed.

Lemma init_step_invariant (c : Z) (st : State) :
  lifecycle_invariant c st ->
  host st = Active NODE_STATE_INIT ->
  lifecycle_invariant c (host_step env st).
Proof.
  intros (Hid & Hflags & Hrate & Hh & Htr) Hhost.
  unfold host_step. rewrite Hhost in *. run. rewrite ?Hhost, ?Hid, ?Hflags, ?Hrate.
  crunch; unfold lifecycle_invariant, handle_invariant, settle, set_host; simpl;
  rewrite ?Hhost; simpl.
  all: repeat split; try assumption; try discriminate.
  all: extend_trace Htr; rewrite ?Hrate, ?Z.eqb_refl; auto.
Qed.

Lemma ok_step_invariant (c : Z) (st : State) :
  lifecycle_invariant c st ->
  host st = Active NODE_STATE_OK ->
  lifecycle_invariant c (host_step env st).
Proof.
  intros (Hid & Hflags & Hrate & Hh & Htr) Hhost.
  unfold handle_invariant in Hh. rewrite Hhost in Hh, Htr.
  destruct Htr as (rest & Htr & Hopen & Hrates & Hdel).
  specialize (Hdel Hh).
  destruct (_channel (node st)) as [h|] eqn:Hc; [clear Hh|contradiction].
  unfold host_step. rewrite Hhost. run.
  crunch; unfold lifecycle_invariant, handle_invariant, settle, set_host; simpl;
  rewrite ?Hhost; simpl.
  all: try contradiction.
  all: repeat split; try assumption; try discriminate.
  all: try (extend_trace Htr; rewrite ?Hopen, ?Hrates, ?Hdel; auto).
  all: try (exists rest; auto).
  all: congruence.
Qed.

Lemma error_step_invariant (c : Z) (st : State) :
  lifecycle_invariant c st ->
  host st = Active NODE_STATE_ERROR ->
  lifecycle_invariant c (host_step env st).
Proof.
  intros (Hid & Hflags & Hrate & Hh & Htr) Hhost.
  unfold handle_invariant in Hh. rewrite Hhost in Hh, Htr.
  destruct Htr as (rest & Htr & Hopen & Hrates & Hdel).
  specialize (Hdel Hh).
  unfold host_step. rewrite Hhost. run.
  unfold lifecycle_invariant, handle_invariant, settle, set_host; simpl.
  repeat split; try assumption.
  extend_trace Htr; rewrite ?Hopen, ?Hrates, ?Hdel; auto.
Qed.

Lemma release_step_invariant (c : Z) (st : State) :
  lifecycle_invariant c st ->
  host st = Releasing ->
  lifecycle_invariant c (host_step env st).
Proof.
  intros (Hid & Hflags & Hrate & Hh & Htr) Hhost.
  unfold handle_invariant in Hh. rewrite Hhost in Hh, Htr.
  destruct Htr as (rest & Htr & Hopen & Hrates & Hdel).
  specialize (Hdel Hh).
  destruct (_channel (node st)) as [h|] eqn:Hc; [clear Hh|contradiction].
  unfold host_step. rewrite Hhost. run.
  crunch; unfold lifecycle_invariant, handle_invariant, settle, set_host; simpl;
  rewrite ?Hhost; simpl.
  all: try contradiction.
  all: repeat split; try assumption; try discriminate.
  all: try (extend_trace Htr; rewrite ?Hopen, ?Hrates, ?Hdel; auto).
  all: try congruence.
  simpl. repeat split; auto. intros Hnone. now destruct Hnone.
Qed.

Lemma host_step_invariant (c : Z) (st : State) :
  lifecycle_invariant c st ->
  terminal (host st) = false ->
  lifecycle_invariant c (host_step env st).
Proof.
  intros Hinv Hterm.
  destruct (host st) as [[| |]| | | |] eqn:Hhost; try discriminate.
  - now apply init_step_invariant.
  - now apply ok_step_invariant.
  - now apply error_step_invariant.
  - now apply release_step_invariant.
Qed.

Lemma reachable_invariant (c : Z) (st : State) :
  reachable env (started c) st -> lifecycle_invariant c st.
Proof.
  induction 1 as [|st st' Hstep _ IH].
  - apply started_invariant.
  - destruct Hstep as [st Hterm]. now apply host_step_invariant.
Qed.

(** *** Polling an empty bus *)

Lemma emit_nil (st : State) : emit [] st = st.
Proof.
  destruct st as [n p tr]. unfold emit. simpl. now rewrite app_nil_r.
Qed.

Lemma emit_emit (evs1 evs2 : list event) (st : State) :
  emit evs2 (emit evs1 st) = emit (evs1 ++ evs2) st.
Proof.
  unfold emit. simpl. now rewrite app_assoc.
Qed.

Lemma host_step_empty_poll (st : State) (h : handle) (what : string) :
  host st = Active NODE_STATE_OK ->
  _channel (node st) = Some h ->
  env_sigint env (trace st) = false ->
  env_read env (trace st) h = Throws (DTCException DTC_UNAVAILABLE what) ->
  host_step env st = emit [CANChannel_read h] st.
Proof.
  intros Hhost Hheld Hsig Hread. unfold host_step.
  rewrite Hhost, Hsig, (okStateEvent_unavailable st h what Hheld Hread).
  reflexivity.
Qed.

Lemma steps_empty_polls (h : handle) (n : nat) :
  (forall tr, exists what,
      env_read env tr h = Throws (DTCException DTC_UNAVAILABLE what)) ->
  (forall tr, env_sigint env tr = false) ->
  forall st,
    host st = Active NODE_STATE_OK ->
    _channel (node st) = Some h ->
    steps env n st = emit (repeat (CANChannel_read h) n) st.
Proof.
  intros Hread Hsig. induction n as [|n IH]; intros st Hhost Hheld; simpl.
  - now rewrite emit_nil.
  - rewrite Hhost. simpl. destruct (Hread (trace st)) as [what Hw].
    rewrite (host_step_empty_poll st h what Hhost Hheld (Hsig _) Hw).
    rewrite IH by assumption. now rewrite emit_emit.
Qed.

Lemma okStateEvent_defined (st : State) (h : handle) :
  _channel (node st) = Some h -> fst (okStateEvent env st) <> Undefined.
Proof.
  intros Hheld. run. crunch; discriminate.
Qed.

Lemma initStateEvent_assigns (st st' : State) :
  initStateEvent env st = (Normal tt, st') -> _channel (node st') <> None.
Proof.
  run. crunch; intros [= <-]; discriminate.
Qed.

(** *** [main] *)

Lemma stoul_throws_std (arg : string) (e : exception) :
  stoul arg = Throws e -> derives_std e = true.
Proof.
  unfold stoul.
  destruct (match skip_space arg with
            | String "-"%char s' => (true, s')
            | String "+"%char s' => (false, s')
            | _ => (false, skip_space arg)
            end) as [negative s].
  destruct (digits s None) as [v|]; [destruct (ULONG_MAX <? v)|];
    intros [= <-]; reflexivity.
Qed.

Lemma setNodeName_channel (name : string) (st st1 : State) (r : Result unit) :
  setNodeName env name st = (r, st1) -> _channel (node st1) = _channel (node st).
Proof.
  run. destruct (env_setNodeName env (trace st) name);
    intros [= _ <-]; reflexivity.
Qed.

Lemma setNodeName_returns (name : string) (st : State) :
  env_setNodeName env (trace st) name = Returns tt ->
  setNodeName env name st = (Normal tt, emit [Node_setNodeName name] st).
Proof.
  intros Hname. run. rewrite Hname. reflexivity.
Qed.

Lemma main_argc (prog arg : string) (rest : list string) :
  (1 <? Z.of_nat (List.length (prog :: arg :: rest))) = true.
Proof.
  apply Z.ltb_lt. cbn [List.length]. lia.
Qed.

(** With a constructible, nameable node, [main] runs the lifecycle of the
    node for the channel the argument converts to. *)
Lemma main_runs_lifecycle (fuel : nat) (prog arg : string) (rest : list string) (v : Z) :
  stoul arg = Returns v ->
  env_Node env = Returns tt ->
  env_setNodeName env [Node_new] "polysync-can-reader-cpp" = Returns tt ->
  main env fuel (prog :: arg :: rest)
  = match connectPolySync env fuel (started (to_uint v)) with
    | Some (r, st) => Some (leave_scope env r st)
    | None => None
    end.
Proof.
  intros Hv Hnode Hname. unfold main.
  rewrite (main_argc prog arg rest). unfold main_try. cbn [nth].
  rewrite Hv, Hnode.
  rewrite (setNodeName_returns _ (constructed (to_uint v))) by exact Hname.
  reflexivity.
Qed.

Lemma leave_scope_caught (e : exception) (st st' : State) :
  derives_std e = true ->
  CANReaderNode_delete env st = (Normal tt, st') ->
  leave_scope env (Raise e) st = (Exit 1, trace st' ++ invalid_argument_message).
Proof.
  intros Hstd Hdel. unfold leave_scope, main_catch. now rewrite Hstd, Hdel.
Qed.

Lemma leave_scope_exit_0 (r : Result unit) (st : State) (tr : list event) :
  leave_scope env r st = (Exit 0, tr) -> r = Normal tt.
Proof.
  unfold leave_scope, main_catch.
  destruct r as [[]|e|]; [reflexivity| |discriminate].
  destruct (derives_std e); [|discriminate].
  destruct (CANReaderNode_delete env st) as [[[]|e'|] st']; discriminate.
Qed.

(** Leaving the scope adds neither an allocation nor a read. *)
Lemma leave_scope_trace (r : Result unit) (st : State) (ex : exit_status) (tr : list event) :
  leave_scope env r st = (ex, tr) ->
  exists extra,
    tr = trace st ++ extra /\
    filter is_open extra = [] /\ filter is_read extra = [].
Proof.
  assert (Hdel : forall st' r', CANReaderNode_delete env st = (r', st') ->
                 exists extra, trace st' = trace st ++ extra /\
                   filter is_open extra = [] /\ filter is_read extra = []).
  { intros st' r'. run. crunch; intros [= _ <-]; simpl.
    1,2: eexists; split;
      [rewrite <- ?app_assoc; simpl; reflexivity|split; reflexivity].
    exists []. now rewrite app_nil_r. }
  assert (Hhere : exists extra, trace st = trace st ++ extra /\
                    filter is_open extra = [] /\ filter is_read extra = []).
  { exists []. now rewrite app_nil_r. }
  unfold leave_scope, main_catch.
  destruct (CANReaderNode_delete env st) as [r' st'] eqn:Hd.
  destruct (Hdel st' r' eq_refl) as (extra & Hextra & Hopen & Hread).
  destruct r as [[]|e|]; [|destruct (derives_std e) eqn:Hstd|];
    destruct r' as [[]|e'|]; intros [= <- <-]; try exact Hhere;
    try (exists extra; now repeat split).
  exists (extra ++ invalid_argument_message). rewrite Hextra, app_assoc.
  rewrite !filter_app, Hopen, Hread. now repeat split.
Qed.

(** *** [connectPolySync] and the step relation *)

Lemma reachable_step_first (st st1 st2 : State) :
  step env st st1 -> reachable env st1 st2 -> reachable env st st2.
Proof.
  intros Hstep Hreach. induction Hreach as [|st2 st3 Hstep' _ IH].
  - econstructor; [exact Hstep|constructor].
  - econstructor; [exact Hstep'|exact IH].
Qed.

Lemma steps_reachable (n : nat) :
  forall st, reachable env st (steps env n st).
Proof.
  induction n as [|n IH]; intros st; simpl.
  - constructor.
  - destruct (terminal (host st)) eqn:Hterm.
    + constructor.
    + apply reachable_step_first with (st1 := host_step env st).
      * now constructor.
      * apply IH.
Qed.

Lemma connectPolySync_reachable (fuel : nat) :
  forall st r st',
    connectPolySync env fuel st = Some (r, st') ->
    reachable env st st' /\ terminal (host st') = true.
Proof.
  induction fuel as [|fuel IH]; intros st r st'; simpl.
  - destruct (host st) eqn:Hhost; intros [= <- <-] || discriminate;
      (split; [constructor|now rewrite Hhost]).
  - destruct (host st) eqn:Hhost.
    1,2: intros Hrun; destruct (IH _ _ _ Hrun) as [Hreach Hterm];
      (split; [|exact Hterm]);
      apply reachable_step_first with (st1 := host_step env st);
      [constructor; now rewrite Hhost|exact Hreach].
    all: intros [= <- <-]; (split; [constructor|now rewrite Hhost]).
Qed.

(** The trace of a lifecycle that has left the initial state. *)
Lemma reachable_trace (c : Z) (st : State) :
  reachable env (started c) st ->
  host st <> Active NODE_STATE_INIT ->
  exists rest,
    trace st = [Node_new; Node_setNodeName "polysync-can-reader-cpp";
                Cout "CANReaderNode::initStateEvent()";
                CANChannel_new c PSYNC_CAN_OPEN_ALLOW_VIRTUAL] ++ rest /\
    filter is_open rest = [] /\
    forallb rate_ok rest = true /\
    (_channel (node st) <> None -> filter is_delete rest = []).
Proof.
  intros Hreach Hhost.
  destruct (reachable_invariant c st Hreach) as (_ & _ & _ & _ & Htr).
  destruct (host st) as [[| |]| | | |]; try (now destruct Hhost); exact Htr.
Qed.

(** The first step of the lifecycle leaves the initial state for good. *)
Lemma init_step_leaves_init (st : State) :
  host st = Active NODE_STATE_INIT ->
  host (host_step env st) <> Active NODE_STATE_INIT.
Proof.
  intros Hhost. unfold host_step. rewrite Hhost. run.
  crunch; unfold settle, set_host; simpl; rewrite ?Hhost; discriminate.
Qed.

Lemma read_after_init_prefix
    (c : Z) (rest before : list event) (h : handle) (after : list event) :
  [Node_new; Node_setNodeName "polysync-can-reader-cpp";
   Cout "CANReaderNode::initStateEvent()";
   CANChannel_new c PSYNC_CAN_OPEN_ALLOW_VIRTUAL] ++ rest
  = before ++ CANChannel_read h :: after ->
  In (CANChannel_new c PSYNC_CAN_OPEN_ALLOW_VIRTUAL) before.
Proof.
  intros Htrace.
  destruct before as [|e1 [|e2 [|e3 [|e4 before]]]]; try discriminate.
  injection Htrace as <- <- <- <- _. simpl. tauto.
Qed.

(** Once past polling, the lifecycle reads no more and activates no fault. *)
Lemma past_polling_step (st : State) :
  past_polling (host st) = true ->
  past_polling (host (host_step env st)) = true /\
  filter is_read (trace (host_step env st)) = filter is_read (trace st) /\
  filter is_fault (trace (host_step env st)) = filter is_fault (trace st).
Proof.
  unfold host_step.
  destruct (host st) as [[| |]| | | |] eqn:Hhost; try discriminate; intros _.
  - run. rewrite !filter_app. simpl. rewrite !app_nil_r. auto.
  - run. crunch; simpl; rewrite ?filter_app; simpl; rewrite ?app_nil_r; auto.
  - now rewrite Hhost.
  - now rewrite Hhost.
  - now rewrite Hhost.
Qed.

Lemma past_polling_reachable (st st' : State) :
  reachable env st st' ->
  past_polling (host st) = true ->
  past_polling (host st') = true /\
  filter is_read (trace st') = filter is_read (trace st) /\
  filter is_fault (trace st') = filter is_fault (trace st).
Proof.
  induction 1 as [|st1 st2 Hstep _ IH]; intros Hpast.
  - auto.
  - destruct (IH Hpast) as (Hp & Hr & Hf). destruct Hstep as [st1 _].
    destruct (past_polling_step st1 Hp) as (Hp' & Hr' & Hf').
    repeat split; congruence.
Qed.

(** A diagnostic raised by the bit-rate configuration or by going on bus is
    reported: the message is printed, one fault is activated, the host moves
    the node to the error state, and no read follows. *)
Lemma bring_up_failure_reported (st st1 st' : State) (h : handle) (dtc : Z) (what : string) :
  host st = Active NODE_STATE_INIT ->
  env_new env (trace st ++ [Cout "CANReaderNode::initStateEvent()"])
    (_channelID (node st)) (_flags (node st)) = Returns h ->
  (env_setBitRate env
     (trace st ++ [Cout "CANReaderNode::initStateEvent()";
                   CANChannel_new (_channelID (node st)) (_flags (node st));
                   Cout "before psync calls"])
     h (_bitRate (node st)) = Throws (DTCException dtc what)
   \/
   env_setBitRate env
     (trace st ++ [Cout "CANReaderNode::initStateEvent()";
                   CANChannel_new (_channelID (node st)) (_flags (node st));
                   Cout "before psync calls"])
     h (_bitRate (node st)) = Returns tt /\
   env_goOnBus env
     (trace st ++ [Cout "CANReaderNode::initStateEvent()";
                   CANChannel_new (_channelID (node st)) (_flags (node st));
                   Cout "before psync calls";
                   CANChannel_setBitRate h (_bitRate (node st))])
     h = Throws (DTCException dtc what)) ->
  st1 = host_step env st ->
  reachable env st1 st' ->
  host st1 = Active NODE_STATE_ERROR /\
  In (Cout what) (trace st1) /\
  filter is_fault (trace st') = filter is_fault (trace st)
                                ++ [Node_activateFault dtc NODE_STATE_ERROR] /\
  filter is_read (trace st') = filter is_read (trace st).
Proof.
  intros Hhost Hnew Hfail -> Hreach.
  assert (Hst1 : host (host_step env st) = Active NODE_STATE_ERROR /\
                 In (Cout what) (trace (host_step env st)) /\
                 filter is_fault (trace (host_step env st))
                 = filter is_fault (trace st)
                   ++ [Node_activateFault dtc NODE_STATE_ERROR] /\
                 filter is_read (trace (host_step env st))
                 = filter is_read (trace st)).
  { unfold host_step. rewrite Hhost.
    destruct Hfail as [Hrate|[Hrate Hbus]].
    - rewrite (initStateEvent_bit_rate_fault st h dtc what Hnew Hrate).
      simpl. rewrite !filter_app. simpl. rewrite app_nil_r.
      repeat split. apply in_or_app. right. simpl. tauto.
    - rewrite (initStateEvent_on_bus_fault st h dtc what Hnew Hrate Hbus).
      simpl. rewrite !filter_app. simpl. rewrite app_nil_r.
      repeat split. apply in_or_app. right. simpl. tauto. }
  destruct Hst1 as (Herr & Hmsg & Hfault & Hread).
  destruct (past_polling_reachable _ _ Hreach) as (_ & Hr & Hf).
  { now rewrite Herr. }
  repeat split; congruence.
Qed.

(** *** What the member functions leave alone *)

Lemma invoke_effect (f : handler) (st : State) :
  configuration (node (snd (invoke env f st))) = configuration (node st) /\
  exists evs,
    trace (snd (invoke env f st)) = trace st ++ evs /\
    forallb (uses_configuration (node st)) evs = true.
Proof.
  destruct (_channel (node st)) as [h0|] eqn:Hheld;
    destruct f; unfold invoke; run; rewrite ?Hheld; crunch; simpl;
    (split; [reflexivity|]);
    try (eexists; split; [rewrite <- ?app_assoc; simpl; reflexivity|];
         simpl; now rewrite ?Z.eqb_refl).
  all: exists []; now rewrite app_nil_r.
Qed.

Lemma uses_configuration_ext (n n' : CANReaderNode) (evs : list event) :
  configuration n' = configuration n ->
  forallb (uses_configuration n') evs = forallb (uses_configuration n) evs.
Proof.
  unfold configuration. intros [= Hid Hflags Hrate].
  induction evs as [|e evs IH]; simpl; [reflexivity|].
  rewrite IH. f_equal. destruct e; simpl; congruence.
Qed.

Lemma schedule_effect (fs : list handler) :
  forall st,
    configuration (node (snd (schedule env fs st))) = configuration (node st) /\
    exists evs,
      trace (snd (schedule env fs st)) = trace st ++ evs /\
      forallb (uses_configuration (node st)) evs = true.
Proof.
  induction fs as [|f fs IH]; intros st; cbn [schedule].
  - unfold ret. simpl. split; [reflexivity|]. exists []. now rewrite app_nil_r.
  - unfold bind.
    destruct (invoke_effect f st) as (Hconf & evs & Htr & Huses).
    destruct (invoke env f st) as [[[]|e|] st1]; simpl in *.
    + destruct (IH st1) as (Hconf' & evs' & Htr' & Huses').
      split; [congruence|].
      exists (evs ++ evs'). rewrite Htr', Htr, app_assoc. split; [reflexivity|].
      rewrite forallb_app, Huses.
      now rewrite <- (uses_configuration_ext (node st) (node st1) evs' Hconf).
    + split; [exact Hconf|]. now exists evs.
    + split; [exact Hconf|]. now exists evs.
Qed.

End Handlers.

(** ** The claims *)

Section Claims.

Context {sdk : PolySync}.

(** C1 (the code departs from the claim).  On a successful read
    [okStateEvent] prints the literal "0x" and then the identifier with the
    stream's default, decimal, formatting: for the frame with identifier
    0x123 and payload length 4 the lines are "CAN frame - ID: 0x291" and
    "DLC: 4".  The output contains "4" but not "0x123"; the hexadecimal
    rendering of the identifier would be "123". *)
Theorem okStateEvent_prints_identifier_in_decimal
    (env : Env) (st : State) (h : handle) (f : Frame) :
  _channel (node st) = Some h ->
  env_read env (trace st) h = Returns f ->
  input_frame_id f = 0x123 ->
  input_frame_payload_size f = 4 ->
  let printed :=
    [CANChannel_read h; Cout "CAN frame - ID: 0x291"; Cout "DLC: 4"] in
  okStateEvent env st = (Normal tt, emit printed st) /\
  contains "0x123" (stdout printed) = false /\
  contains "0x291" (stdout printed) = true /\
  contains "4" (stdout printed) = true /\
  print_hex (input_frame_id f) = "123"%string.
Proof.
  intros Hheld Hread Hid Hsize printed.
  rewrite (okStateEvent_frame env st h f Hheld Hread), Hid, Hsize.
  repeat split; reflexivity.
Qed.

(** C2.  A read that fails with a diagnostic code while the node is
    running: with [DTC_UNAVAILABLE] the handler returns having only made
    the read, so nothing is printed, no fault is activated and the node and
    the host's state are as before; with any other code the message is
    printed, the fault is activated and the host moves the node to the
    error state.  Any number of polls of a bus that has no data leaves the
    node running with the same members, and adds only the reads to the
    trace. *)
Theorem okStateEvent_read_failure
    (env : Env) (st : State) (h : handle) :
  _channel (node st) = Some h ->
  host st = Active NODE_STATE_OK ->
  (forall dtc what,
      env_read env (trace st) h = Throws (DTCException dtc what) ->
      dtc = DTC_UNAVAILABLE ->
      okStateEvent env st = (Normal tt, emit [CANChannel_read h] st) /\
      node (emit [CANChannel_read h] st) = node st /\
      host (emit [CANChannel_read h] st) = Active NODE_STATE_OK) /\
  (forall dtc what,
      env_read env (trace st) h = Throws (DTCException dtc what) ->
      dtc <> DTC_UNAVAILABLE ->
      okStateEvent env st
      = (Normal tt,
         set_host (Active NODE_STATE_ERROR)
           (emit [CANChannel_read h; Cout what;
                  Node_activateFault dtc NODE_STATE_ERROR] st)) /\
      (env_sigint env (trace st) = false ->
       host (host_step env st) = Active NODE_STATE_ERROR)) /\
  (forall n,
      (forall tr, exists what,
          env_read env tr h = Throws (DTCException DTC_UNAVAILABLE what)) ->
      (forall tr, env_sigint env tr = false) ->
      steps env n st = emit (repeat (CANChannel_read h) n) st /\
      node (steps env n st) = node st /\
      host (steps env n st) = Active NODE_STATE_OK /\
      filter is_fault (trace (steps env n st)) = filter is_fault (trace st)).
Proof.
  intros Hheld Hhost. repeat split.
  - subst dtc. now apply okStateEvent_unavailable with (what := what).
  - exact Hhost.
  - now apply okStateEvent_fault.
  - intros Hsig. unfold host_step.
    rewrite Hhost, Hsig, (okStateEvent_fault env st h dtc what) by assumption.
    reflexivity.
  - now apply steps_empty_polls.
  - rewrite (steps_empty_polls env h n) by assumption. reflexivity.
  - rewrite (steps_empty_polls env h n) by assumption. exact Hhost.
  - rewrite (steps_empty_polls env h n) by assumption. simpl.
    rewrite filter_app.
    assert (Hnone : filter is_fault (repeat (CANChannel_read h) n) = []).
    { clear. induction n; simpl; auto. }
    rewrite Hnone. apply app_nil_r.
Qed.

(** C5, amended.  Teardown when taking the channel off the bus succeeds:
    if a channel is held, [releaseStateEvent] goes off bus, deletes the
    channel and clears the handle; if none is held it only prints its
    banner.  Either way the handle is null afterwards, and a second
    teardown makes no call on the channel and leaves the members of the
    node as they are: a second [releaseStateEvent] only prints the banner,
    and the destructor does nothing at all.  When [goOffBus] throws, the
    exception leaves [releaseStateEvent] after the call: the channel is not
    deleted and the members of the node, the handle among them, are as
    before. *)
Theorem releaseStateEvent_idempotent (env : Env) (st : State) :
  ((forall h,
       _channel (node st) = Some h ->
       env_goOffBus env (trace st ++ [Cout "CANReaderNode::releaseStateEvent()"]) h
       = Returns tt) ->
   exists st1,
     releaseStateEvent env st = (Normal tt, st1) /\
     st1 = match _channel (node st) with
           | Some h =>
               with_channel None
                 (emit [Cout "CANReaderNode::releaseStateEvent()";
                        CANChannel_goOffBus h; CANChannel_delete h] st)
           | None => emit [Cout "CANReaderNode::releaseStateEvent()"] st
           end /\
     _channel (node st1) = None /\
     releaseStateEvent env st1
     = (Normal tt, emit [Cout "CANReaderNode::releaseStateEvent()"] st1) /\
     node (emit [Cout "CANReaderNode::releaseStateEvent()"] st1) = node st1 /\
     CANReaderNode_delete env st1 = (Normal tt, st1)) /\
  (forall h e,
      _channel (node st) = Some h ->
      env_goOffBus env (trace st ++ [Cout "CANReaderNode::releaseStateEvent()"]) h
      = Throws e ->
      releaseStateEvent env st
      = (Raise e,
         emit [Cout "CANReaderNode::releaseStateEvent()"; CANChannel_goOffBus h] st) /\
      node (emit [Cout "CANReaderNode::releaseStateEvent()"; CANChannel_goOffBus h] st)
      = node st /\
      _channel (node st) <> None).
Proof.
  split.
  - intros Hoff.
    destruct (_channel (node st)) as [h|] eqn:Hc.
    + eexists.
      split; [apply (releaseStateEvent_held env st h Hc (Hoff h eq_refl))|].
      repeat split.
    + eexists. split; [apply (releaseStateEvent_null env st Hc)|].
      repeat split; try assumption.
      * now apply releaseStateEvent_null.
      * now apply CANReaderNode_delete_null.
  - intros h e Hheld Hoff.
    split; [now apply releaseStateEvent_off_bus_throws|].
    split; [reflexivity|]. now rewrite Hheld.
Qed.

(** C10.  [okStateEvent] runs into a null dereference exactly when the
    handle is null: there is no check.  The handle is non-null once
    [initStateEvent] has returned and null once [releaseStateEvent] has
    returned, and whenever the host is about to poll a node it started the
    handle is held, so the lifecycle never reaches the dereference of a null
    handle. *)
Theorem okStateEvent_requires_channel (env : Env) (st : State) :
  (fst (okStateEvent env st) = Undefined <-> _channel (node st) = None) /\
  (forall st', initStateEvent env st = (Normal tt, st') ->
               fst (okStateEvent env st') <> Undefined) /\
  (forall st', releaseStateEvent env st = (Normal tt, st') ->
               fst (okStateEvent env st') = Undefined) /\
  (forall c, reachable env (started c) st ->
             host st = Active NODE_STATE_OK ->
             _channel (node st) <> None) /\
  (forall c, reachable env (started c) st -> host st <> Crashed).
Proof.
  assert (Hnull : forall s, _channel (node s) = None ->
                            fst (okStateEvent env s) = Undefined).
  { intros s Hs. now rewrite okStateEvent_null. }
  assert (Hheld : forall s, _channel (node s) <> None ->
                            fst (okStateEvent env s) <> Undefined).
  { intros s Hs. destruct (_channel (node s)) as [h|] eqn:Hc; [|easy].
    now apply okStateEvent_defined with (h := h). }
  repeat split.
  - intros Hub. destruct (_channel (node st)) as [h|] eqn:Hc; [|reflexivity].
    exfalso. apply (Hheld st); [now rewrite Hc|exact Hub].
  - apply Hnull.
  - intros st' Hinit. apply Hheld. now apply (initStateEvent_assigns env st).
  - intros st' Hrel. apply Hnull. now apply (releaseStateEvent_clears env st).
  - intros c Hreach Hhost.
    destruct (reachable_invariant env c st Hreach) as (_ & _ & _ & Hh & _).
    unfold handle_invariant in Hh. now rewrite Hhost in Hh.
  - intros c Hreach Hhost.
    destruct (reachable_invariant env c st Hreach) as (_ & _ & _ & Hh & _).
    unfold handle_invariant in Hh. now rewrite Hhost in Hh.
Qed.

(** C3 (the code departs from the claim).  The channel is allocated before
    the try block of [initStateEvent]: when the allocation fails with a
    diagnostic the exception leaves the handler.  The handler has printed
    its banner and nothing else, no fault is activated, the handle stays
    null, and the host sees an escaped exception instead of a node in the
    error state. *)
Theorem initStateEvent_allocation_failure_escapes
    (env : Env) (st : State) (dtc : Z) (what : string) :
  host st = Active NODE_STATE_INIT ->
  env_new env (trace st ++ [Cout "CANReaderNode::initStateEvent()"])
    (_channelID (node st)) (_flags (node st))
  = Throws (DTCException dtc what) ->
  initStateEvent env st
  = (Raise (DTCException dtc what),
     emit [Cout "CANReaderNode::initStateEvent()";
           CANChannel_new (_channelID (node st)) (_flags (node st))] st) /\
  host (host_step env st) = Escaped (DTCException dtc what) /\
  _channel (node (host_step env st)) = _channel (node st) /\
  filter is_fault (trace (host_step env st)) = filter is_fault (trace st).
Proof.
  intros Hhost Hnew.
  pose proof (initStateEvent_new_throws env st _ Hnew) as Hinit.
  split; [exact Hinit|].
  unfold host_step. rewrite Hhost, Hinit. simpl.
  repeat split. rewrite filter_app. simpl. apply app_nil_r.
Qed.

(** C4, amended.  Without an argument, or with an argument [std::stoul]
    rejects, [main] prints two lines and returns 1.  The first line differs
    between the two cases; the second line, the example, is the same. *)
Theorem main_usage_on_bad_argument (env : Env) (fuel : nat) (argv : list string) :
  (List.length argv <= 1)%nat \/
  (exists e, stoul (nth 1 argv EmptyString) = Throws e) ->
  main env fuel argv
  = Some (Exit 1,
          [Cout (if 1 <? Z.of_nat (List.length argv)
                 then "Invalid argument. This example requires valid integer input representing a CAN channel."
                 else "Must pass CAN channel argument.");
           Cout "For example: polysync-can-reader-cpp 1"]).
Proof.
  intros Hbad. unfold main.
  destruct (1 <? Z.of_nat (List.length argv)) eqn:Hargc.
  - destruct Hbad as [Hnone|[e He]].
    + apply Z.ltb_lt in Hargc. lia.
    + unfold main_try. rewrite He. unfold main_catch.
      now rewrite (stoul_throws_std _ _ He).
  - reflexivity.
Qed.

(** C6, amended.  In every state of the lifecycle of a started node the
    handle is null before [initStateEvent] has run and after
    [releaseStateEvent] has returned, and non-null while the node is
    running, in the error state or due for teardown: a failed bring-up
    leaves the node in the error state still holding the handle.  While
    the handle is non-null the channel has been allocated and not
    deleted. *)
Theorem handle_held_from_allocation_to_teardown (env : Env) (c : Z) (st : State) :
  reachable env (started c) st ->
  (host st = Active NODE_STATE_INIT -> _channel (node st) = None) /\
  (host st = Active NODE_STATE_OK \/ host st = Active NODE_STATE_ERROR \/
   host st = Releasing -> _channel (node st) <> None) /\
  (host st = Finished -> _channel (node st) = None) /\
  (_channel (node st) <> None ->
   In (CANChannel_new c PSYNC_CAN_OPEN_ALLOW_VIRTUAL) (trace st) /\
   filter is_delete (trace st) = []).
Proof.
  intros Hreach.
  destruct (reachable_invariant env c st Hreach) as (_ & _ & _ & Hh & _).
  unfold handle_invariant in Hh.
  repeat split.
  - intros Hhost. now rewrite Hhost in Hh.
  - intros [Hhost|[Hhost|Hhost]]; now rewrite Hhost in Hh.
  - intros Hhost. now rewrite Hhost in Hh.
  - destruct (reachable_trace env c st Hreach) as (rest & -> & _).
    + intros Hhost. rewrite Hhost in Hh. contradiction.
    + simpl. tauto.
  - destruct (reachable_trace env c st Hreach) as (rest & -> & _ & _ & Hdel).
    + intros Hhost. rewrite Hhost in Hh. contradiction.
    + simpl. now apply Hdel.
Qed.

(** C7.  A run of [main] on a numeral in the range of [uint], with a
    node that can be constructed and named.  In the lifecycle of its node,
    once [initStateEvent] has run the trace holds exactly one allocation of
    a channel, for that identifier and [PSYNC_CAN_OPEN_ALLOW_VIRTUAL], and
    none before; the allocation precedes every read; every bit rate set is
    [DATARATE_500K].  The first step of the lifecycle makes the allocation,
    and a run that ends has made exactly that one, before any read. *)
Theorem one_open_before_any_read
    (env : Env) (prog arg : string) (rest : list string) (n : Z) :
  stoul arg = Returns n ->
  0 <= n < 2 ^ UINT_WIDTH ->
  env_Node env = Returns tt ->
  env_setNodeName env [Node_new] "polysync-can-reader-cpp" = Returns tt ->
  (forall st,
      reachable env (started (to_uint n)) st ->
      filter is_open (trace st)
      = match host st with
        | Active NODE_STATE_INIT => []
        | _ => [CANChannel_new n PSYNC_CAN_OPEN_ALLOW_VIRTUAL]
        end /\
      (forall before h after,
          trace st = before ++ CANChannel_read h :: after ->
          In (CANChannel_new n PSYNC_CAN_OPEN_ALLOW_VIRTUAL) before) /\
      (forall h rate,
          In (CANChannel_setBitRate h rate) (trace st) -> rate = DATARATE_500K)) /\
  filter is_open (trace (host_step env (started (to_uint n))))
  = [CANChannel_new n PSYNC_CAN_OPEN_ALLOW_VIRTUAL] /\
  (forall fuel ex tr,
      main env fuel (prog :: arg :: rest) = Some (ex, tr) ->
      filter is_open tr = [CANChannel_new n PSYNC_CAN_OPEN_ALLOW_VIRTUAL] /\
      (forall before h after,
          tr = before ++ CANChannel_read h :: after ->
          In (CANChannel_new n PSYNC_CAN_OPEN_ALLOW_VIRTUAL) before)).
Proof.
  intros Hconv Hn Hnode Hname.
  assert (Hid : to_uint n = n) by (unfold to_uint; now apply Z.mod_small).
  split; [|split].
  2: { rewrite Hid.
       pose proof (steps_reachable env 1 (started n)) as Hreach.
       destruct (reachable_trace env n _ Hreach) as (more & Hshape & Hmore & _).
       - now apply init_step_leaves_init.
       - simpl in Hshape. rewrite Hshape. simpl. now rewrite Hmore. }
  - rewrite Hid. intros st Hreach.
    assert (Hinit : host st = Active NODE_STATE_INIT ->
                    trace st = [Node_new; Node_setNodeName "polysync-can-reader-cpp"]).
    { intros Hhost.
      destruct (reachable_invariant env n st Hreach) as (_ & _ & _ & _ & Htr).
      now rewrite Hhost in Htr. }
    pose proof (reachable_trace env n st Hreach) as Hpast.
    split; [|split].
    + destruct (host st) as [[| |]| | | |] eqn:Hhost;
        try (destruct Hpast as (more & -> & Hopen & _);
             [discriminate|simpl; now rewrite Hopen]).
      now rewrite Hinit.
    + intros before h after Htrace.
      destruct (host st) as [[| |]| | | |] eqn:Hhost.
      1: { rewrite Hinit in Htrace by reflexivity.
           destruct before as [|e1 [|e2 [|e3 before]]]; discriminate. }
      all: destruct Hpast as (more & Hshape & _); [discriminate|];
        rewrite Hshape in Htrace;
        now apply (read_after_init_prefix n more before h after).
    + intros h rate Hin.
      destruct (host st) as [[| |]| | | |] eqn:Hhost.
      1: { rewrite Hinit in Hin by reflexivity. simpl in Hin.
           destruct Hin as [|[|[]]]; discriminate. }
      all: destruct Hpast as (more & Hshape & _ & Hrates & _); [discriminate|];
        rewrite Hshape in Hin; simpl in Hin;
        destruct Hin as [|[|[|[|Hin]]]]; try discriminate;
        rewrite forallb_forall in Hrates; apply Hrates in Hin;
        now apply Z.eqb_eq in Hin.
  - intros fuel ex tr.
    rewrite (main_runs_lifecycle env fuel prog arg rest n Hconv Hnode Hname), Hid.
    destruct (connectPolySync env fuel (started n)) as [[r st]|] eqn:Hrun;
      [|discriminate].
    intros [= Hleave].
    destruct (connectPolySync_reachable env fuel _ _ _ Hrun) as [Hreach Hterm].
    destruct (leave_scope_trace env r st ex tr Hleave)
      as (extra & -> & Hopen & _).
    destruct (reachable_trace env n st Hreach) as (more & Hshape & Hmore & _).
    { intros Hhost. now rewrite Hhost in Hterm. }
    rewrite Hshape. split.
    + rewrite filter_app. simpl. now rewrite Hmore, Hopen.
    + intros before h after Htrace. rewrite <- app_assoc in Htrace.
      now apply (read_after_init_prefix n (more ++ extra) before h after).
Qed.

(** C8, amended.  An exception derived from [std::exception] that leaves
    the conversion of the argument, the construction of the node or
    [setNodeName] reaches the catch clause of [main], which prints the
    invalid-argument message and returns 1, whatever raised it.  One that
    leaves [connectPolySync] reaches the clause when the destructor of the
    node, which runs while the stack unwinds, returns; when [goOffBus]
    throws in that destructor the program ends in [std::terminate], with
    no message and no exit code.  [main] returns 0 only when
    [connectPolySync] has returned normally. *)
Theorem main_catches_every_std_exception
    (env : Env) (fuel : nat) (prog arg : string) (rest : list string) :
  (forall e,
      derives_std e = true ->
      stoul arg = Throws e \/
      (exists v, stoul arg = Returns v /\ env_Node env = Throws e) \/
      (exists v st1,
          stoul arg = Returns v /\ env_Node env = Returns tt /\
          setNodeName env "polysync-can-reader-cpp" (constructed (to_uint v))
          = (Raise e, st1)) \/
      (exists v st1 st2 st3,
          stoul arg = Returns v /\ env_Node env = Returns tt /\
          setNodeName env "polysync-can-reader-cpp" (constructed (to_uint v))
          = (Normal tt, st1) /\
          connectPolySync env fuel st1 = Some (Raise e, st2) /\
          CANReaderNode_delete env st2 = (Normal tt, st3)) ->
      exists tr,
        main env fuel (prog :: arg :: rest)
        = Some (Exit 1, tr ++ invalid_argument_message)) /\
  (forall tr,
      main env fuel (prog :: arg :: rest) = Some (Exit 0, tr) ->
      exists v st1 st2,
        stoul arg = Returns v /\
        setNodeName env "polysync-can-reader-cpp" (constructed (to_uint v))
        = (Normal tt, st1) /\
        connectPolySync env fuel st1 = Some (Normal tt, st2)) /\
  (forall e e' v st1 st2 st3,
      derives_std e = true ->
      stoul arg = Returns v ->
      env_Node env = Returns tt ->
      setNodeName env "polysync-can-reader-cpp" (constructed (to_uint v))
      = (Normal tt, st1) ->
      connectPolySync env fuel st1 = Some (Raise e, st2) ->
      CANReaderNode_delete env st2 = (Raise e', st3) ->
      main env fuel (prog :: arg :: rest) = Some (Terminated, trace st3)).
Proof.
  unfold main. rewrite (main_argc prog arg rest). unfold main_try. cbn [nth].
  split; [|split].
  3: { intros e e' v st1 st2 st3 Hstd Hconv Hnode Hname Hrun Hdel.
       rewrite Hconv, Hnode, Hname, Hrun. unfold leave_scope.
       now rewrite Hstd, Hdel. }
  - intros e Hstd [Hconv|[(v & Hconv & Hnode)|[(v & st1 & Hconv & Hnode & Hname)
                 |(v & st1 & st2 & st3 & Hconv & Hnode & Hname & Hrun & Hdel)]]];
      rewrite Hconv; try rewrite Hnode; try rewrite Hname; try rewrite Hrun.
    + exists []. unfold main_catch. now rewrite Hstd.
    + exists [Node_new]. unfold main_catch. now rewrite Hstd.
    + exists (trace st1).
      rewrite (leave_scope_caught env e st1 st1 Hstd); [reflexivity|].
      apply CANReaderNode_delete_null.
      now rewrite (setNodeName_channel env _ _ _ _ Hname).
    + exists (trace st3). now rewrite (leave_scope_caught env e st2 st3 Hstd Hdel).
  - intros tr.
    destruct (stoul arg) as [v|e] eqn:Hconv.
    2: { unfold main_catch. destruct (derives_std e); discriminate. }
    destruct (env_Node env) as [[]|e].
    2: { unfold main_catch. destruct (derives_std e); discriminate. }
    destruct (setNodeName env "polysync-can-reader-cpp" (constructed (to_uint v)))
      as [[[]|e|] st1] eqn:Hname.
    + destruct (connectPolySync env fuel st1) as [[r st2]|] eqn:Hrun;
        [|discriminate].
      intros Hexit.
      assert (Hr : r = Normal tt)
        by (apply (leave_scope_exit_0 env r st2 tr); congruence).
      subst r. exists v, st1, st2. auto.
    + intros Hexit.
      assert (Hr : Raise e = Normal tt)
        by (apply (leave_scope_exit_0 env (Raise e) st1 tr); congruence).
      discriminate.
    + intros Hexit.
      assert (Hr : Undefined = Normal tt)
        by (apply (leave_scope_exit_0 env Undefined st1 tr); congruence).
      discriminate.
Qed.

(** C9.  ["-1"] and ["5abc"] are not unsigned-integer numerals, yet
    [std::stoul] converts them, to [ULONG_MAX] (channel 4294967295 as a
    [uint]) and to 5.  With either argument [main] does not stop at the
    usage message: it constructs the node and runs its lifecycle for that
    channel; on a simulated bus the run for ["5abc"] opens channel 5, reads
    a frame and returns 0. *)
Theorem stoul_accepts_non_numerals :
  is_numeral "-1" = false /\
  stoul "-1" = Returns ULONG_MAX /\
  to_uint ULONG_MAX = 4294967295 /\
  is_numeral "5abc" = false /\
  stoul "5abc" = Returns 5 /\
  (forall env fuel prog arg channel,
      In (arg, channel) [("-1", 4294967295); ("5abc", 5)]%string ->
      env_Node env = Returns tt ->
      env_setNodeName env [Node_new] "polysync-can-reader-cpp" = Returns tt ->
      main env fuel [prog; arg]
      = match connectPolySync env fuel (started channel) with
        | Some (r, st) => Some (leave_scope env r st)
        | None => None
        end) /\
  main one_frame 5 ["polysync-can-reader-cpp"; "5abc"]%string
  = Some (Exit 0,
          [Node_new; Node_setNodeName "polysync-can-reader-cpp";
           Cout "CANReaderNode::initStateEvent()";
           CANChannel_new 5 PSYNC_CAN_OPEN_ALLOW_VIRTUAL;
           Cout "before psync calls";
           CANChannel_setBitRate 1%positive DATARATE_500K;
           CANChannel_goOnBus 1%positive;
           Cout "after psync calls";
           CANChannel_read 1%positive;
           Cout "CAN frame - ID: 0x291";
           Cout "DLC: 4";
           Cout "CANReaderNode::releaseStateEvent()";
           CANChannel_goOffBus 1%positive;
           CANChannel_delete 1%positive]).
Proof.
  repeat split.
  intros env fuel prog arg channel [[= <- <-]|[[= <- <-]|[]]] Hnode Hname.
  - now rewrite (main_runs_lifecycle env fuel prog "-1" [] ULONG_MAX).
  - now rewrite (main_runs_lifecycle env fuel prog "5abc" [] 5).
Qed.

End Claims.

(** ** The claims on concrete runs *)

Section Runs.

#[local] Existing Instance sim_sdk.

Lemma okStateEvent_prints_identifier_in_decimal_run :
  _channel (node polling) = Some 1%positive /\
  okStateEvent one_frame polling
  = (Normal tt,
     emit [CANChannel_read 1%positive; Cout "CAN frame - ID: 0x291"; Cout "DLC: 4"]
       polling).
Proof.
  split; [reflexivity|].
  apply (okStateEvent_prints_identifier_in_decimal
           one_frame polling 1%positive frame_0x123);
    reflexivity.
Defined.

Lemma okStateEvent_read_failure_run :
  okStateEvent silent_bus polling
  = (Normal tt, emit [CANChannel_read 1%positive] polling) /\
  steps silent_bus 3 polling
  = emit [CANChannel_read 1%positive; CANChannel_read 1%positive;
          CANChannel_read 1%positive] polling /\
  okStateEvent bus_off polling
  = (Normal tt,
     set_host (Active NODE_STATE_ERROR)
       (emit [CANChannel_read 1%positive; Cout "bus off";
              Node_activateFault 9 NODE_STATE_ERROR] polling)).
Proof.
  destruct (okStateEvent_read_failure silent_bus polling 1%positive eq_refl eq_refl)
    as (Hempty & _ & Hpolls).
  destruct (okStateEvent_read_failure bus_off polling 1%positive eq_refl eq_refl)
    as (_ & Hfault & _).
  split; [|split].
  - apply (Hempty 6 "DTC_UNAVAILABLE"%string); reflexivity.
  - apply (Hpolls 3%nat).
    + intros tr. exists "DTC_UNAVAILABLE"%string. reflexivity.
    + reflexivity.
  - apply (Hfault 9 "bus off"%string); [reflexivity|discriminate].
Defined.

Lemma initStateEvent_allocation_failure_escapes_run :
  initStateEvent no_hardware (started 5)
  = (Raise (DTCException 9 "no hardware"),
     emit [Cout "CANReaderNode::initStateEvent()"; CANChannel_new 5 1] (started 5)) /\
  host (host_step no_hardware (started 5)) = Escaped (DTCException 9 "no hardware").
Proof.
  destruct (initStateEvent_allocation_failure_escapes
              no_hardware (started 5) 9 "no hardware" eq_refl eq_refl)
    as (Hinit & Hhost & _).
  split; [exact Hinit|exact Hhost].
Defined.

Lemma main_usage_on_bad_argument_run :
  main one_frame 0 ["polysync-can-reader-cpp"; "abc"]%string
  = Some (Exit 1,
          [Cout "Invalid argument. This example requires valid integer input representing a CAN channel.";
           Cout "For example: polysync-can-reader-cpp 1"]) /\
  main one_frame 0 ["polysync-can-reader-cpp"]%string
  = Some (Exit 1,
          [Cout "Must pass CAN channel argument.";
           Cout "For example: polysync-can-reader-cpp 1"]).
Proof.
  split.
  - apply (main_usage_on_bad_argument one_frame 0
             ["polysync-can-reader-cpp"; "abc"]%string).
    right. exists (std_invalid_argument "stoul"). reflexivity.
  - apply (main_usage_on_bad_argument one_frame 0 ["polysync-can-reader-cpp"]%string).
    left. simpl. lia.
Defined.

(** C4 as stated fails: the two failures do not print the same message. *)
Lemma usage_messages_differ :
  stoul "abc" = Throws (std_invalid_argument "stoul") /\
  option_map (fun r => stdout (snd r))
    (main one_frame 0 ["polysync-can-reader-cpp"; "abc"]%string)
  <> option_map (fun r => stdout (snd r))
       (main one_frame 0 ["polysync-can-reader-cpp"]%string).
Proof.
  split; [reflexivity|discriminate].
Qed.

Lemma releaseStateEvent_idempotent_run :
  (exists st1,
     releaseStateEvent one_frame polling = (Normal tt, st1) /\
     _channel (node st1) = None /\
     trace st1 = [Cout "CANReaderNode::releaseStateEvent()";
                  CANChannel_goOffBus 1%positive; CANChannel_delete 1%positive] /\
     releaseStateEvent one_frame st1
     = (Normal tt, emit [Cout "CANReaderNode::releaseStateEvent()"] st1) /\
     CANReaderNode_delete one_frame st1 = (Normal tt, st1)) /\
  releaseStateEvent stuck_bus polling
  = (Raise (std_exception "bus stuck"),
     emit [Cout "CANReaderNode::releaseStateEvent()"; CANChannel_goOffBus 1%positive]
       polling).
Proof.
  split.
  - destruct (proj1 (releaseStateEvent_idempotent one_frame polling))
      as (st1 & Hfirst & Hst1 & Hnull & Hsecond & _ & Hdtor).
    + intros h _. reflexivity.
    + exists st1. repeat split; try assumption. rewrite Hst1. reflexivity.
  - apply (proj2 (releaseStateEvent_idempotent stuck_bus polling)
             1%positive (std_exception "bus stuck"));
      reflexivity.
Defined.

(** C5 as stated fails: the channel is held and refuses to go off bus.  The
    first teardown neither deletes it nor clears the handle, and the second
    teardown is no no-op: it calls [goOffBus] again and, the channel giving
    way this time, deletes it and changes the members of the node. *)
Lemma teardown_repeats_after_failure :
  releaseStateEvent sticky_bus polling
  = (Raise (DTCException 9 "busy"),
     emit [Cout "CANReaderNode::releaseStateEvent()"; CANChannel_goOffBus 1%positive]
       polling) /\
  _channel (node (snd (releaseStateEvent sticky_bus polling))) = Some 1%positive /\
  releaseStateEvent sticky_bus (snd (releaseStateEvent sticky_bus polling))
  = (Normal tt,
     {| node := {| _channel := None; _channelID := 3; _flags := 1; _bitRate := 500 |};
        host := Active NODE_STATE_OK;
        trace := [Cout "CANReaderNode::releaseStateEvent()";
                  CANChannel_goOffBus 1%positive;
                  Cout "CANReaderNode::releaseStateEvent()";
                  CANChannel_goOffBus 1%positive;
                  CANChannel_delete 1%positive] |}) /\
  node (snd (releaseStateEvent sticky_bus
               (snd (releaseStateEvent sticky_bus polling))))
  <> node (snd (releaseStateEvent sticky_bus polling)).
Proof.
  repeat split. discriminate.
Qed.

Lemma handle_held_from_allocation_to_teardown_run :
  host (host_step bad_bit_rate (started 3)) = Active NODE_STATE_ERROR /\
  _channel (node (host_step bad_bit_rate (started 3))) <> None /\
  filter is_delete (trace (host_step bad_bit_rate (started 3))) = [].
Proof.
  pose proof (steps_reachable bad_bit_rate 1 (started 3)) as Hreach.
  destruct (handle_held_from_allocation_to_teardown bad_bit_rate 3 _ Hreach)
    as (_ & Hheld & _ & Htrace).
  assert (Herr : host (host_step bad_bit_rate (started 3)) = Active NODE_STATE_ERROR)
    by reflexivity.
  split; [exact Herr|]. split.
  - apply Hheld. right. left. exact Herr.
  - apply Htrace. apply Hheld. right. left. exact Herr.
Defined.

(** C6 as stated fails: the bit rate is refused, the initialization has
    failed and a fault is active, and the node holds the handle. *)
Lemma failed_initialization_keeps_handle :
  initStateEvent bad_bit_rate (started 3)
  = (Normal tt,
     {| node := {| _channel := Some 1%positive; _channelID := 3;
                   _flags := 1; _bitRate := 500 |};
        host := Active NODE_STATE_ERROR;
        trace := [Node_new; Node_setNodeName "polysync-can-reader-cpp";
                  Cout "CANReaderNode::initStateEvent()";
                  CANChannel_new 3 1;
                  Cout "before psync calls";
                  CANChannel_setBitRate 1%positive 500;
                  Cout "exception";
                  Cout "bit rate";
                  Node_activateFault 9 NODE_STATE_ERROR] |}) /\
  reachable bad_bit_rate (started 3) (host_step bad_bit_rate (started 3)) /\
  host (host_step bad_bit_rate (started 3)) = Active NODE_STATE_ERROR /\
  _channel (node (host_step bad_bit_rate (started 3))) = Some 1%positive /\
  _channel (node (host_step bad_bit_rate (started 3))) <> None.
Proof.
  repeat split; try discriminate.
  exact (steps_reachable bad_bit_rate 1 (started 3)).
Qed.

Lemma one_open_before_any_read_run :
  filter is_open (trace (steps one_frame 2 (started 3))) = [CANChannel_new 3 1] /\
  trace (steps one_frame 2 (started 3))
  = [Node_new; Node_setNodeName "polysync-can-reader-cpp";
     Cout "CANReaderNode::initStateEvent()"; CANChannel_new 3 1;
     Cout "before psync calls"; CANChannel_setBitRate 1%positive 500;
     CANChannel_goOnBus 1%positive; Cout "after psync calls";
     CANChannel_read 1%positive;
     Cout "CAN frame - ID: 0x291"; Cout "DLC: 4"] /\
  forall ex tr,
    main one_frame 5 ["polysync-can-reader-cpp"; "3"]%string = Some (ex, tr) ->
    filter is_open tr = [CANChannel_new 3 1].
Proof.
  assert (Hrange : 0 <= 3 < 2 ^ UINT_WIDTH) by (unfold UINT_WIDTH; lia).
  destruct (one_open_before_any_read one_frame "polysync-can-reader-cpp" "3" [] 3
              eq_refl Hrange eq_refl eq_refl)
    as (Hstates & _ & Hruns).
  split; [|split].
  - apply (Hstates (steps one_frame 2 (started 3))).
    apply (steps_reachable one_frame 2 (started (to_uint 3))).
  - reflexivity.
  - intros ex tr Hmain. now apply (Hruns 5%nat ex tr).
Defined.

Lemma main_catches_every_std_exception_run :
  (exists tr,
     main no_hardware 3 ["polysync-can-reader-cpp"; "5"]%string
     = Some (Exit 1, tr ++ invalid_argument_message)) /\
  (exists tr,
     main stuck_bus 5 ["polysync-can-reader-cpp"; "3"]%string
     = Some (Terminated, tr)).
Proof.
  split.
  - destruct (main_catches_every_std_exception
                no_hardware 3 "polysync-can-reader-cpp" "5" [])
      as (Hcatch & _).
    apply (Hcatch (DTCException 9 "no hardware")); [reflexivity|].
    right. right. right.
    exists 5. do 3 eexists. repeat split; reflexivity.
  - destruct (main_catches_every_std_exception
                stuck_bus 5 "polysync-can-reader-cpp" "3" [])
      as (_ & _ & Hterminate).
    eexists.
    eapply (Hterminate (std_exception "bus stuck") (std_exception "bus stuck") 3);
      reflexivity.
Defined.

(** C8 as stated fails: the channel never goes off bus.  The exception of
    [goOffBus], derived from [std::exception], leaves [releaseStateEvent]
    and [connectPolySync]; the destructor calls [goOffBus] again while the
    stack unwinds, and the program ends in [std::terminate]: no usage
    message, no exit code 1. *)
Lemma exception_of_connectPolySync_not_caught :
  option_map fst (connectPolySync stuck_bus 5 (started 3))
  = Some (Raise (std_exception "bus stuck")) /\
  derives_std (std_exception "bus stuck") = true /\
  main stuck_bus 5 ["polysync-can-reader-cpp"; "3"]%string
  = Some (Terminated,
          [Node_new; Node_setNodeName "polysync-can-reader-cpp";
           Cout "CANReaderNode::initStateEvent()"; CANChannel_new 3 1;
           Cout "before psync calls"; CANChannel_setBitRate 1%positive 500;
           CANChannel_goOnBus 1%positive; Cout "after psync calls";
           Cout "CANReaderNode::releaseStateEvent()";
           CANChannel_goOffBus 1%positive;
           CANChannel_goOffBus 1%positive]).
Proof.
  repeat split.
Qed.

Lemma stoul_accepts_non_numerals_run :
  main one_frame 5 ["polysync-can-reader-cpp"; "-1"]%string
  = match connectPolySync one_frame 5 (started 4294967295) with
    | Some (r, st) => Some (leave_scope one_frame r st)
    | None => None
    end.
Proof.
  destruct stoul_accepts_non_numerals as (_ & _ & _ & _ & _ & Hruns & _).
  apply (Hruns one_frame 5%nat "polysync-can-reader-cpp"%string "-1"%string 4294967295);
    [left|..]; reflexivity.
Defined.

Lemma okStateEvent_requires_channel_run :
  fst (okStateEvent one_frame released) = Undefined /\
  host (steps one_frame 5 (started 3)) <> Crashed.
Proof.
  split.
  - apply (proj1 (okStateEvent_requires_channel one_frame released)). reflexivity.
  - pose proof (steps_reachable one_frame 5 (started 3)) as Hreach.
    destruct (okStateEvent_requires_channel one_frame (steps one_frame 5 (started 3)))
      as (_ & _ & _ & _ & Hsafe).
    exact (Hsafe 3 Hreach).
Defined.

End Runs.

(** ** Converting the argument *)

Section Conversion.

Import Decimal.

Lemma digits_stop (junk : string) (acc : option Z) :
  stops_digits junk = true -> digits junk acc = acc.
Proof.
  destruct junk as [|c junk]; simpl; [reflexivity|].
  destruct (digit c); [discriminate|reflexivity].
Qed.

Lemma digits_numeral (d : uint) (junk : string) :
  forall acc,
    digits (DecimalString.NilEmpty.string_of_uint d ++ junk) (Some acc)
    = digits junk (Some (uint_value d acc)).
Proof.
  induction d; intros acc; simpl; try apply IHd. reflexivity.
Qed.

Lemma digits_numeral_start (d : uint) (junk : string) :
  d <> Nil ->
  digits (DecimalString.NilEmpty.string_of_uint d ++ junk) None
  = digits junk (Some (uint_value d 0)).
Proof.
  destruct d; intros Hd; [now destruct Hd|..]; simpl; apply digits_numeral.
Qed.

Lemma uint_value_little (d : uint) :
  forall acc,
    uint_value d acc
    = Z.of_N (DecimalPos.Unsigned.of_lu (rev d))
      + acc * 10 ^ Z.of_N (DecimalPos.Unsigned.usize d).
Proof.
  induction d; intros acc;
    [cbn; ring|..];
    cbn [uint_value DecimalPos.Unsigned.usize]; rewrite IHd;
    match goal with
    | |- context [DecimalPos.Unsigned.of_lu (rev (?f d))] =>
        change (rev (f d)) with (revapp d (f Nil));
        rewrite (DecimalPos.Unsigned.of_lu_revapp d (f Nil));
        let k := eval cbv in (DecimalPos.Unsigned.of_lu (f Nil)) in
        change (DecimalPos.Unsigned.of_lu (f Nil)) with k
    end;
    rewrite N2Z.inj_add, N2Z.inj_mul, N2Z.inj_pow, N2Z.inj_succ;
    rewrite Z.pow_succ_r by apply N2Z.is_nonneg;
    change (Z.of_N 10) with 10;
    generalize (Z.of_N (DecimalPos.Unsigned.of_lu (rev d)));
    generalize (10 ^ Z.of_N (DecimalPos.Unsigned.usize d));
    intros P A; cbn [Z.of_N]; ring.
Qed.

Lemma uint_value_to_uint (n : N) : uint_value (N.to_uint n) 0 = Z.of_N n.
Proof.
  rewrite uint_value_little, Z.mul_0_l, Z.add_0_r.
  rewrite <- DecimalPos.Unsigned.of_uint_alt.
  f_equal. apply DecimalN.Unsigned.of_to.
Qed.

Lemma to_uint_nonnil (n : N) : N.to_uint n <> Nil.
Proof.
  destruct n as [|p]; simpl; [discriminate|].
  apply DecimalPos.Unsigned.to_uint_nonnil.
Qed.

Lemma print_uint_numeral (v : Z) :
  print_uint v = DecimalString.NilEmpty.string_of_uint (N.to_uint (Z.to_N v)).
Proof.
  unfold print_uint, DecimalString.NilZero.string_of_uint.
  pose proof (to_uint_nonnil (Z.to_N v)) as Hd.
  destruct (N.to_uint (Z.to_N v)); [now destruct Hd|reflexivity..].
Qed.

Lemma skip_space_all_space (ws s : string) :
  all_space ws = true -> skip_space (ws ++ s) = skip_space s.
Proof.
  induction ws as [|c ws IH]; simpl; [reflexivity|].
  destruct (isspace c); [exact IH|discriminate].
Qed.

(** [std::stoul] on white space, a numeral, and text that does not go on
    with a digit. *)
Lemma stoul_numeral (ws : string) (d : uint) (junk : string) :
  all_space ws = true ->
  d <> Nil ->
  stops_digits junk = true ->
  stoul (ws ++ DecimalString.NilEmpty.string_of_uint d ++ junk)
  = if ULONG_MAX <? uint_value d 0
    then Throws (std_out_of_range "stoul")
    else Returns (uint_value d 0).
Proof.
  intros Hws Hd Hjunk. unfold stoul. rewrite (skip_space_all_space _ _ Hws).
  destruct d; [now destruct Hd|..]; cbn [DecimalString.NilEmpty.string_of_uint];
    cbn [append skip_space]; cbv [isspace]; simpl;
    rewrite digits_numeral, (digits_stop _ _ Hjunk); reflexivity.
Qed.

(** The same after a minus sign. *)
Lemma stoul_negative_numeral (ws : string) (d : uint) (junk : string) :
  all_space ws = true ->
  d <> Nil ->
  stops_digits junk = true ->
  stoul (ws ++ String "-"%char (DecimalString.NilEmpty.string_of_uint d ++ junk))
  = if ULONG_MAX <? uint_value d 0
    then Throws (std_out_of_range "stoul")
    else Returns ((- uint_value d 0) mod 2 ^ ULONG_WIDTH).
Proof.
  intros Hws Hd Hjunk. unfold stoul. rewrite (skip_space_all_space _ _ Hws).
  cbn [skip_space]. cbv [isspace]. simpl.
  rewrite (digits_numeral_start d junk Hd), (digits_stop _ _ Hjunk).
  reflexivity.
Qed.

Lemma stoul_print_uint (ws : string) (n : Z) (junk : string) :
  all_space ws = true ->
  0 <= n ->
  stops_digits junk = true ->
  stoul (ws ++ print_uint n ++ junk)
  = if ULONG_MAX <? n then Throws (std_out_of_range "stoul") else Returns n.
Proof.
  intros Hws Hn Hjunk.
  rewrite print_uint_numeral, (stoul_numeral ws _ junk Hws (to_uint_nonnil _) Hjunk).
  now rewrite uint_value_to_uint, Z2N.id.
Qed.

Lemma stoul_minus_print_uint (ws : string) (n : Z) (junk : string) :
  all_space ws = true ->
  0 <= n ->
  stops_digits junk = true ->
  stoul (ws ++ String "-"%char (print_uint n ++ junk))
  = if ULONG_MAX <? n then Throws (std_out_of_range "stoul")
    else Returns ((- n) mod 2 ^ ULONG_WIDTH).
Proof.
  intros Hws Hn Hjunk.
  rewrite print_uint_numeral,
    (stoul_negative_numeral ws _ junk Hws (to_uint_nonnil _) Hjunk).
  now rewrite uint_value_to_uint, Z2N.id.
Qed.

Lemma append_empty_r (s : string) : (s ++ "")%string = s.
Proof.
  induction s as [|c s IH]; simpl; [reflexivity|now rewrite IH].
Qed.

Lemma to_uint_wraps (n k : Z) : to_uint (n + k * 2 ^ UINT_WIDTH) = to_uint n.
Proof.
  unfold to_uint. apply Z.mod_add. unfold UINT_WIDTH. lia.
Qed.

Lemma to_uint_of_ulong (v : Z) :
  to_uint (v mod 2 ^ ULONG_WIDTH) = to_uint v.
Proof.
  unfold to_uint, ULONG_WIDTH, UINT_WIDTH.
  apply Z.mod_mod_divide. exists (2 ^ 32). reflexivity.
Qed.

End Conversion.

(** ** Further properties of the program *)

Section Extras.

Context {sdk : PolySync}.

(** [main] sees its argument only through the channel [std::stoul] and the
    narrowing to [uint] make of it. *)
Lemma main_same_channel
    (env : Env) (fuel : nat) (prog arg arg' : string) (rest rest' : list string)
    (v v' : Z) :
  stoul arg = Returns v ->
  stoul arg' = Returns v' ->
  to_uint v = to_uint v' ->
  main env fuel (prog :: arg :: rest) = main env fuel (prog :: arg' :: rest').
Proof.
  intros Hv Hv' Hsame. unfold main.
  rewrite (main_argc prog arg rest), (main_argc prog arg' rest').
  unfold main_try. cbn [nth]. now rewrite Hv, Hv', Hsame.
Qed.

(** X1.  An argument made of white space, the decimal numeral of a number
    up to [ULONG_MAX] and any text that does not go on with a digit is
    converted to that number, and [main] runs the lifecycle of the node for
    that number reduced modulo [2^32]. *)
Theorem main_runs_channel_of_numeral
    (env : Env) (fuel : nat) (prog ws junk : string) (rest : list string) (n : Z) :
  all_space ws = true ->
  0 <= n <= ULONG_MAX ->
  stops_digits junk = true ->
  env_Node env = Returns tt ->
  env_setNodeName env [Node_new] "polysync-can-reader-cpp" = Returns tt ->
  stoul (ws ++ print_uint n ++ junk) = Returns n /\
  main env fuel (prog :: (ws ++ print_uint n ++ junk)%string :: rest)
  = match connectPolySync env fuel (started (n mod 2 ^ 32)) with
    | Some (r, st) => Some (leave_scope env r st)
    | None => None
    end.
Proof.
  intros Hws [Hn Hmax] Hjunk Hnode Hname.
  assert (Hconv : stoul (ws ++ print_uint n ++ junk) = Returns n).
  { rewrite (stoul_print_uint ws n junk Hws Hn Hjunk).
    apply Z.ltb_ge in Hmax. now rewrite Hmax. }
  split; [exact Hconv|].
  apply (main_runs_lifecycle env fuel prog _ rest n Hconv Hnode Hname).
Qed.

(** X2.  The channel identifier wraps at [2^32]: the numerals of two
    numbers up to [ULONG_MAX] that differ by a multiple of [2^32] give the
    same run of [main], whatever the SDK does. *)
Theorem main_channel_wraps
    (env : Env) (fuel : nat) (prog : string) (rest : list string) (n k : Z) :
  0 <= n ->
  0 <= k ->
  n + k * 2 ^ 32 <= ULONG_MAX ->
  main env fuel (prog :: print_uint (n + k * 2 ^ 32) :: rest)
  = main env fuel (prog :: print_uint n :: rest).
Proof.
  intros Hn Hk Hmax.
  assert (Hconv : forall m, 0 <= m <= ULONG_MAX -> stoul (print_uint m) = Returns m).
  { intros m [Hm Hmmax].
    pose proof (stoul_print_uint "" m "" eq_refl Hm eq_refl) as Hs.
    simpl in Hs. rewrite append_empty_r in Hs. rewrite Hs.
    apply Z.ltb_ge in Hmmax. now rewrite Hmmax. }
  apply (main_same_channel env fuel prog _ _ rest rest (n + k * 2 ^ 32) n).
  - apply Hconv. nia.
  - apply Hconv. nia.
  - apply (to_uint_wraps n k).
Qed.

(** X3.  The numeral of a number above [ULONG_MAX] is rejected: [main]
    prints the invalid-argument message and returns 1 without a call into
    the SDK. *)
Theorem main_rejects_numeral_out_of_range
    (env : Env) (fuel : nat) (prog ws junk : string) (rest : list string) (n : Z) :
  all_space ws = true ->
  ULONG_MAX < n ->
  stops_digits junk = true ->
  stoul (ws ++ print_uint n ++ junk) = Throws (std_out_of_range "stoul") /\
  main env fuel (prog :: (ws ++ print_uint n ++ junk)%string :: rest)
  = Some (Exit 1, invalid_argument_message).
Proof.
  intros Hws Hmax Hjunk.
  assert (Hconv : stoul (ws ++ print_uint n ++ junk)
                  = Throws (std_out_of_range "stoul")).
  { assert (Hn : 0 <= n) by (unfold ULONG_MAX, ULONG_WIDTH in Hmax; lia).
    rewrite (stoul_print_uint ws n junk Hws Hn Hjunk).
    apply Z.ltb_lt in Hmax. now rewrite Hmax. }
  split; [exact Hconv|].
  unfold main. rewrite main_argc. unfold main_try. cbn [nth]. now rewrite Hconv.
Qed.

(** X4.  A minus sign before the numeral of a number up to [ULONG_MAX] is
    accepted: the value is negated in [unsigned long], and [main] runs the
    lifecycle of the node for the channel [(- n) mod 2^32]. *)
Theorem main_runs_channel_of_negative_numeral
    (env : Env) (fuel : nat) (prog ws junk : string) (rest : list string) (n : Z) :
  all_space ws = true ->
  0 <= n <= ULONG_MAX ->
  stops_digits junk = true ->
  env_Node env = Returns tt ->
  env_setNodeName env [Node_new] "polysync-can-reader-cpp" = Returns tt ->
  stoul (ws ++ String "-"%char (print_uint n ++ junk)) = Returns ((- n) mod 2 ^ 64) /\
  main env fuel (prog :: (ws ++ String "-"%char (print_uint n ++ junk))%string :: rest)
  = match connectPolySync env fuel (started ((- n) mod 2 ^ 32)) with
    | Some (r, st) => Some (leave_scope env r st)
    | None => None
    end.
Proof.
  intros Hws [Hn Hmax] Hjunk Hnode Hname.
  assert (Hconv : stoul (ws ++ String "-"%char (print_uint n ++ junk))
                  = Returns ((- n) mod 2 ^ ULONG_WIDTH)).
  { rewrite (stoul_minus_print_uint ws n junk Hws Hn Hjunk).
    apply Z.ltb_ge in Hmax. now rewrite Hmax. }
  split; [exact Hconv|].
  rewrite (main_runs_lifecycle env fuel prog _ rest _ Hconv Hnode Hname).
  now rewrite to_uint_of_ulong.
Qed.

(** X5.  Whatever member functions are invoked, in whatever order and
    whatever the SDK answers, the channel identifier, the flags and the bit
    rate of the node keep the values they had, every channel is allocated
    for that identifier and those flags, and every bit rate set is that bit
    rate. *)
Theorem schedule_keeps_configuration (env : Env) (fs : list handler) (st : State) :
  configuration (node (snd (schedule env fs st))) = configuration (node st) /\
  exists evs,
    trace (snd (schedule env fs st)) = trace st ++ evs /\
    (forall channelID flags,
        In (CANChannel_new channelID flags) evs ->
        channelID = _channelID (node st) /\ flags = _flags (node st)) /\
    (forall h rate,
        In (CANChannel_setBitRate h rate) evs -> rate = _bitRate (node st)).
Proof.
  destruct (schedule_effect env fs st) as (Hconf & evs & Htr & Huses).
  split; [exact Hconf|]. exists evs. split; [exact Htr|].
  rewrite forallb_forall in Huses. split.
  - intros channelID flags Hin. apply Huses in Hin. simpl in Hin.
    apply andb_prop in Hin. destruct Hin as [Hid Hflags].
    now apply Z.eqb_eq in Hid, Hflags.
  - intros h rate Hin. apply Huses in Hin. simpl in Hin.
    now apply Z.eqb_eq in Hin.
Qed.

(** X6.  [okStateEvent] on a node that holds a channel changes no member of
    the node, whatever the read does.  It reads once, and makes no call
    that allocates, configures or releases a channel: after the read, all
    it asks of the channel are the two getters, which the trace does not
    record. *)
Theorem okStateEvent_only_reads (env : Env) (st : State) (h : handle) :
  _channel (node st) = Some h ->
  node (snd (okStateEvent env st)) = node st /\
  exists evs,
    trace (snd (okStateEvent env st)) = trace st ++ CANChannel_read h :: evs /\
    filter is_read evs = [] /\
    filter is_channel_change evs = [].
Proof.
  intros Hheld. run. crunch; simpl; (split; [reflexivity|]);
    eexists;
    (split; [rewrite <- ?app_assoc; simpl; reflexivity|split; reflexivity]).
Qed.

(** X7.  No member function activates a fault silently: if a call adds a
    fault to the trace, it adds exactly one, as its last action and right
    after printing a line, for the state [NODE_STATE_ERROR]; the call then
    returns normally and the node is in the error state. *)
Theorem fault_follows_report (env : Env) (f : handler) (st : State) :
  exists evs,
    trace (snd (invoke env f st)) = trace st ++ evs /\
    (filter is_fault evs = [] \/
     exists pre dtc what,
       evs = pre ++ [Cout what; Node_activateFault dtc NODE_STATE_ERROR] /\
       filter is_fault pre = [] /\
       fst (invoke env f st) = Normal tt /\
       host (snd (invoke env f st)) = Active NODE_STATE_ERROR).
Proof.
  destruct (_channel (node st)) as [h0|] eqn:Hheld;
    destruct f; unfold invoke; run; rewrite ?Hheld; crunch; simpl.
  all: try (exists []; split; [now rewrite app_nil_r|now left]).
  all: eexists; (split; [rewrite <- ?app_assoc; simpl; reflexivity|]).
  all: try (left; reflexivity).
  all: right;
    match goal with
    | |- exists pre dtc what, ?evs = _ /\ _ =>
        exists (firstn (List.length evs - 2) evs)
    end; simpl; do 2 eexists; repeat split; reflexivity.
Qed.

(** X8.  An exception from [read] that is not a [DTCException] is not
    caught by [okStateEvent]: it leaves the handler right after the read,
    nothing is printed, no fault is activated and the node is unchanged, so
    the host is handed the exception with the channel still held. *)
Theorem okStateEvent_passes_other_exceptions
    (env : Env) (st : State) (h : handle) (e : exception) :
  _channel (node st) = Some h ->
  env_read env (trace st) h = Throws e ->
  (forall dtc what, e <> DTCException dtc what) ->
  okStateEvent env st = (Raise e, emit [CANChannel_read h] st) /\
  (host st = Active NODE_STATE_OK ->
   env_sigint env (trace st) = false ->
   host (host_step env st) = Escaped e /\
   _channel (node (host_step env st)) = Some h).
Proof.
  intros Hheld Hread Hother.
  pose proof (okStateEvent_escapes env st h e Hheld Hread Hother) as Hok.
  split; [exact Hok|].
  intros Hhost Hsig. unfold host_step. rewrite Hhost, Hsig, Hok. simpl.
  split; [reflexivity|exact Hheld].
Qed.

(** X9.  An exception from [setBitRate] or [goOnBus] that is not a
    [DTCException] leaves [initStateEvent] with the channel already
    assigned to the node: the line "exception" is not printed and no fault
    is activated.  The destructor, run next with a channel that goes off
    bus, releases that channel. *)
Theorem initStateEvent_passes_other_exceptions
    (env : Env) (st : State) (h : handle) (e : exception) :
  env_new env (trace st ++ [Cout "CANReaderNode::initStateEvent()"])
    (_channelID (node st)) (_flags (node st)) = Returns h ->
  (forall dtc what, e <> DTCException dtc what) ->
  env_setBitRate env
    (trace st ++ [Cout "CANReaderNode::initStateEvent()";
                  CANChannel_new (_channelID (node st)) (_flags (node st));
                  Cout "before psync calls"])
    h (_bitRate (node st)) = Throws e \/
  env_setBitRate env
    (trace st ++ [Cout "CANReaderNode::initStateEvent()";
                  CANChannel_new (_channelID (node st)) (_flags (node st));
                  Cout "before psync calls"])
    h (_bitRate (node st)) = Returns tt /\
  env_goOnBus env
    (trace st ++ [Cout "CANReaderNode::initStateEvent()";
                  CANChannel_new (_channelID (node st)) (_flags (node st));
                  Cout "before psync calls";
                  CANChannel_setBitRate h (_bitRate (node st))])
    h = Throws e ->
  exists st1,
    initStateEvent env st = (Raise e, st1) /\
    _channel (node st1) = Some h /\
    host st1 = host st /\
    (exists evs, trace st1 = trace st ++ evs /\
                 filter is_fault evs = [] /\
                 ~ In (Cout "exception") evs) /\
    (env_goOffBus env (trace st1) h = Returns tt ->
     CANReaderNode_delete env st1
     = (Normal tt,
        with_channel None
          (emit [CANChannel_goOffBus h; CANChannel_delete h] st1))).
Proof.
  intros Hnew Hother [Hrate|[Hrate Hbus]].
  - eexists. split.
    + answer Hnew Hrate Hrate. destruct e; try reflexivity.
      now destruct (Hother dtc what).
    + simpl. repeat split.
      * eexists. split; [reflexivity|]. split; [reflexivity|].
        simpl. intros [H|[H|[H|[H|[]]]]]; discriminate.
      * intros Hoff. now apply CANReaderNode_delete_held.
  - eexists. split.
    + answer Hnew Hrate Hbus. destruct e; try reflexivity.
      now destruct (Hother dtc what).
    + simpl. repeat split.
      * eexists. split; [reflexivity|]. split; [reflexivity|].
        simpl. intros [H|[H|[H|[H|[H|[]]]]]]; discriminate.
      * intros Hoff. now apply CANReaderNode_delete_held.
Qed.

(** X10.  A teardown that cannot take the channel off the bus does not
    delete it: the exception leaves [releaseStateEvent], the node still
    holds the handle, and the trace has no [delete].  A destructor that
    runs afterwards and gets the channel off the bus deletes it, once, and
    clears the handle. *)
Theorem failed_teardown_is_retried
    (env : Env) (st : State) (h : handle) (e : exception) :
  _channel (node st) = Some h ->
  env_goOffBus env (trace st ++ [Cout "CANReaderNode::releaseStateEvent()"]) h
  = Throws e ->
  env_goOffBus env
    (trace st ++ [Cout "CANReaderNode::releaseStateEvent()"; CANChannel_goOffBus h]) h
  = Returns tt ->
  exists st1 st2,
    releaseStateEvent env st = (Raise e, st1) /\
    _channel (node st1) = Some h /\
    trace st1 = trace st ++ [Cout "CANReaderNode::releaseStateEvent()";
                             CANChannel_goOffBus h] /\
    CANReaderNode_delete env st1 = (Normal tt, st2) /\
    _channel (node st2) = None /\
    trace st2 = trace st ++ [Cout "CANReaderNode::releaseStateEvent()";
                             CANChannel_goOffBus h;
                             CANChannel_goOffBus h;
                             CANChannel_delete h].
Proof.
  intros Hheld Hfail Hretry.
  do 2 eexists. split.
  { apply (releaseStateEvent_off_bus_throws env st h e Hheld Hfail). }
  split; [exact Hheld|]. split; [reflexivity|]. split.
  { apply (CANReaderNode_delete_held env _ h); [exact Hheld|exact Hretry]. }
  split; [reflexivity|]. simpl. now rewrite <- app_assoc.
Qed.

(** X11.  [initStateEvent] brings the channel up in a fixed order, each
    call made exactly when the one before returned.  It always allocates,
    with the node's identifier and flags; if the allocation throws that is
    its only call on a channel and the handle is as before.  If the
    allocation returns a channel, the node holds it and [setBitRate] is
    called on it with the node's bit rate; if that throws, no further call
    is made.  If it returns, [goOnBus] is called, and nothing after it.
    The handler returns normally without a fault exactly when all three
    calls returned. *)
Theorem initStateEvent_bring_up_order (env : Env) (st : State) :
  exists evs,
    trace (snd (initStateEvent env st)) = trace st ++ evs /\
    match env_new env (trace st ++ [Cout "CANReaderNode::initStateEvent()"])
            (_channelID (node st)) (_flags (node st)) with
    | Throws _ =>
        filter is_channel_op evs
        = [CANChannel_new (_channelID (node st)) (_flags (node st))] /\
        _channel (node (snd (initStateEvent env st))) = _channel (node st) /\
        ~ (fst (initStateEvent env st) = Normal tt /\ filter is_fault evs = [])
    | Returns h =>
        _channel (node (snd (initStateEvent env st))) = Some h /\
        match env_setBitRate env
                (trace st ++ [Cout "CANReaderNode::initStateEvent()";
                              CANChannel_new (_channelID (node st)) (_flags (node st));
                              Cout "before psync calls"])
                h (_bitRate (node st)) with
        | Throws _ =>
            filter is_channel_op evs
            = [CANChannel_new (_channelID (node st)) (_flags (node st));
               CANChannel_setBitRate h (_bitRate (node st))] /\
            ~ (fst (initStateEvent env st) = Normal tt /\ filter is_fault evs = [])
        | Returns _ =>
            filter is_channel_op evs
            = [CANChannel_new (_channelID (node st)) (_flags (node st));
               CANChannel_setBitRate h (_bitRate (node st));
               CANChannel_goOnBus h] /\
            match env_goOnBus env
                    (trace st ++ [Cout "CANReaderNode::initStateEvent()";
                                  CANChannel_new (_channelID (node st)) (_flags (node st));
                                  Cout "before psync calls";
                                  CANChannel_setBitRate h (_bitRate (node st))])
                    h with
            | Throws _ =>
                ~ (fst (initStateEvent env st) = Normal tt /\ filter is_fault evs = [])
            | Returns _ =>
                fst (initStateEvent env st) = Normal tt /\ filter is_fault evs = []
            end
        end
    end.
Proof.
  destruct (env_new env (trace st ++ [Cout "CANReaderNode::initStateEvent()"])
              (_channelID (node st)) (_flags (node st))) as [h|e] eqn:Hnew.
  2: { rewrite (initStateEvent_new_throws env st e Hnew).
       eexists. split; [reflexivity|]. simpl.
       repeat split. intros [Hr _]. discriminate. }
  destruct (env_setBitRate env
              (trace st ++ [Cout "CANReaderNode::initStateEvent()";
                            CANChannel_new (_channelID (node st)) (_flags (node st));
                            Cout "before psync calls"])
              h (_bitRate (node st))) as [[]|e] eqn:Hrate.
  2: { answer Hnew Hrate Hrate. destruct e; simpl;
         rewrite <- ?app_assoc; simpl;
         (eexists; split; [reflexivity|]); simpl; repeat split;
         intros [Hr Hf]; discriminate. }
  destruct (env_goOnBus env
              (trace st ++ [Cout "CANReaderNode::initStateEvent()";
                            CANChannel_new (_channelID (node st)) (_flags (node st));
                            Cout "before psync calls";
                            CANChannel_setBitRate h (_bitRate (node st))])
              h) as [[]|e] eqn:Hbus.
  - rewrite (initStateEvent_on_bus env st h Hnew Hrate Hbus).
    eexists. split; [reflexivity|]. simpl. repeat split.
  - answer Hnew Hrate Hbus. destruct e; simpl;
      rewrite <- ?app_assoc; simpl;
      (eexists; split; [reflexivity|]); simpl; repeat split;
      intros [Hr Hf]; discriminate.
Qed.

(** *** Whole runs *)

Lemma steps_terminal (env : Env) (n : nat) (st : State) :
  terminal (host st) = true -> steps env n st = st.
Proof.
  intros Hterm. destruct n; simpl; [reflexivity|]. now rewrite Hterm.
Qed.

Lemma steps_next (env : Env) (n : nat) (st : State) :
  terminal (host st) = false ->
  steps env (S n) st = steps env n (host_step env st).
Proof.
  intros Hterm. simpl. now rewrite Hterm.
Qed.

Lemma steps_add (env : Env) (a b : nat) :
  forall st, steps env (a + b) st = steps env b (steps env a st).
Proof.
  induction a as [|a IH]; intros st; simpl; [reflexivity|].
  destruct (terminal (host st)) eqn:Hterm.
  - now rewrite steps_terminal.
  - apply IH.
Qed.

(** Enough fuel for the steps that end the lifecycle is enough for
    [connectPolySync]. *)
Lemma connectPolySync_steps (env : Env) (n : nat) :
  forall fuel st,
    terminal (host (steps env n st)) = true ->
    (n <= fuel)%nat ->
    connectPolySync env fuel st = connectPolySync env 0 (steps env n st).
Proof.
  assert (Hdone : forall fuel st, terminal (host st) = true ->
                  connectPolySync env fuel st = connectPolySync env 0 st).
  { intros fuel st Hterm. destruct fuel; simpl; [reflexivity|].
    destruct (host st); try discriminate; reflexivity. }
  induction n as [|n IH]; intros fuel st; simpl.
  - intros Hterm _. now apply Hdone.
  - destruct (terminal (host st)) eqn:Hterm.
    + intros _ _. now apply Hdone.
    + intros Hend Hfuel. destruct fuel as [|fuel]; [lia|].
      simpl. destruct (host st); try discriminate; apply IH; (assumption || lia).
Qed.

(** X12.  A read that fails with a diagnostic other than "no data" ends
    the run in three steps when the channel goes off bus: the handler
    reports it and activates the fault, [errorStateEvent] asks for the
    disconnect, [releaseStateEvent] releases the channel, and
    [connectPolySync] returns normally with the handle cleared. *)
Theorem fatal_read_ends_in_teardown
    (env : Env) (st : State) (h : handle) (dtc : Z) (what : string) (fuel : nat) :
  host st = Active NODE_STATE_OK ->
  _channel (node st) = Some h ->
  env_sigint env (trace st) = false ->
  env_read env (trace st) h = Throws (DTCException dtc what) ->
  dtc <> DTC_UNAVAILABLE ->
  env_goOffBus env
    (trace st ++ [CANChannel_read h; Cout what;
                  Node_activateFault dtc NODE_STATE_ERROR;
                  Cout "CANReaderNode::errorStateEvent()";
                  Node_disconnectPolySync;
                  Cout "CANReaderNode::releaseStateEvent()"]) h = Returns tt ->
  (3 <= fuel)%nat ->
  connectPolySync env fuel st
  = Some (Normal tt,
          set_host Finished
            (with_channel None
               (emit [CANChannel_read h; Cout what;
                      Node_activateFault dtc NODE_STATE_ERROR;
                      Cout "CANReaderNode::errorStateEvent()";
                      Node_disconnectPolySync;
                      Cout "CANReaderNode::releaseStateEvent()";
                      CANChannel_goOffBus h; CANChannel_delete h] st))).
Proof.
  intros Hhost Hheld Hsig Hread Hdtc Hoff Hfuel.
  assert (Hsteps : steps env 3 st
                   = set_host Finished
                       (with_channel None
                          (emit [CANChannel_read h; Cout what;
                                 Node_activateFault dtc NODE_STATE_ERROR;
                                 Cout "CANReaderNode::errorStateEvent()";
                                 Node_disconnectPolySync;
                                 Cout "CANReaderNode::releaseStateEvent()";
                                 CANChannel_goOffBus h; CANChannel_delete h] st))).
  { pose proof (okStateEvent_fault env st h dtc what Hheld Hread Hdtc) as Hok.
    rewrite (steps_next env 2 st) by now rewrite Hhost.
    assert (H1 : host_step env st
                 = set_host (Active NODE_STATE_ERROR)
                     (emit [CANChannel_read h; Cout what;
                            Node_activateFault dtc NODE_STATE_ERROR] st)).
    { unfold host_step. now rewrite Hhost, Hsig, Hok. }
    rewrite H1. rewrite steps_next by reflexivity.
    assert (H2 : host_step env
                   (set_host (Active NODE_STATE_ERROR)
                      (emit [CANChannel_read h; Cout what;
                             Node_activateFault dtc NODE_STATE_ERROR] st))
                 = set_host Releasing
                     (emit [CANChannel_read h; Cout what;
                            Node_activateFault dtc NODE_STATE_ERROR;
                            Cout "CANReaderNode::errorStateEvent()";
                            Node_disconnectPolySync] st)).
    { unfold host_step. cbn [host set_host]. run. unfold set_host. simpl.
      now rewrite <- !app_assoc. }
    rewrite H2. rewrite steps_next by reflexivity. cbn [steps].
    unfold host_step. cbn [host set_host].
    rewrite (releaseStateEvent_held env _ h).
    - unfold settle, set_host, with_channel, emit. simpl.
      now rewrite <- !app_assoc.
    - exact Hheld.
    - simpl. rewrite <- !app_assoc. exact Hoff. }
  rewrite (connectPolySync_steps env 3 fuel st);
    [now rewrite Hsteps|now rewrite Hsteps|exact Hfuel].
Qed.

Lemma skipn_head {A B : Type} (g : A -> B) (d : B) :
  forall (k : nat) (l : list A) (x : A) (r : list A),
    skipn k l = x :: r ->
    nth k (map g l) d = g x /\ (k < List.length l)%nat /\ skipn (S k) l = r.
Proof.
  induction k as [|k IH]; intros [|a l] x r; simpl; try discriminate.
  - intros [= -> ->]. repeat split. lia.
  - intros Hskip. destruct (IH l x r Hskip) as (Hnth & Hlen & Hrest).
    repeat split; [exact Hnth|lia|exact Hrest].
Qed.

(** Polling the replayed bus reads the frames that are left, in order. *)
Lemma replay_polls (h : handle) (frames : list Frame) :
  forall (rest : list Frame) (k : nat) (st : State),
    host st = Active NODE_STATE_OK ->
    _channel (node st) = Some h ->
    reads_so_far (trace st) = k ->
    skipn k frames = rest ->
    steps (replay h frames) (List.length rest) st
    = emit (flat_map (frame_events h) rest) st.
Proof.
  induction rest as [|f rest IH]; intros k st Hhost Hheld Hreads Hskip.
  - simpl. now rewrite emit_nil.
  - destruct (skipn_head (@Returns Frame) (Throws unavailable) k frames f rest Hskip)
      as (Hnth & Hlen & Hrest).
    cbn [List.length]. rewrite steps_next by now rewrite Hhost.
    assert (Hstep : host_step (replay h frames) st = emit (frame_events h f) st).
    { unfold host_step. rewrite Hhost.
      assert (Hsig : env_sigint (replay h frames) (trace st) = false).
      { simpl. rewrite Hreads, length_map. apply Nat.leb_gt. exact Hlen. }
      rewrite Hsig.
      rewrite (okStateEvent_frame (replay h frames) st h f Hheld).
      - reflexivity.
      - simpl. now rewrite Hreads. }
    rewrite Hstep.
    rewrite (IH (S k) (emit (frame_events h f) st)); try assumption.
    + cbn [flat_map]. now rewrite emit_emit.
    + simpl. unfold reads_so_far in *. rewrite filter_app, length_app, Hreads.
      simpl. lia.
Qed.

(** X13.  A complete run on a bus that delivers the frames [frames] before
    the host is interrupted: [main], given the numeral of a channel in the
    range of [uint] and fuel for the lifecycle, returns 0, and its trace is
    the bring-up of that channel, then for every frame, in order, the read
    and the two lines printed for it, then the teardown. *)
Theorem main_prints_every_frame
    (h : handle) (frames : list Frame) (c : Z) (prog : string) (fuel : nat) :
  0 <= c < 2 ^ UINT_WIDTH ->
  (List.length frames + 3 <= fuel)%nat ->
  main (replay h frames) fuel [prog; print_uint c]
  = Some (Exit 0,
          [Node_new; Node_setNodeName "polysync-can-reader-cpp";
           Cout "CANReaderNode::initStateEvent()";
           CANChannel_new c PSYNC_CAN_OPEN_ALLOW_VIRTUAL;
           Cout "before psync calls";
           CANChannel_setBitRate h DATARATE_500K;
           CANChannel_goOnBus h;
           Cout "after psync calls"]
          ++ flat_map (frame_events h) frames
          ++ [Cout "CANReaderNode::releaseStateEvent()";
              CANChannel_goOffBus h; CANChannel_delete h]).
Proof.
  intros Hc Hfuel.
  assert (Hconv : stoul (print_uint c) = Returns c).
  { pose proof (stoul_print_uint "" c "" eq_refl (proj1 Hc) eq_refl) as Hs.
    simpl in Hs. rewrite append_empty_r in Hs. rewrite Hs.
    assert (Hmax : (ULONG_MAX <? c) = false).
    { apply Z.ltb_ge. unfold ULONG_MAX, ULONG_WIDTH, UINT_WIDTH in *. lia. }
    now rewrite Hmax. }
  rewrite (main_runs_lifecycle (replay h frames) fuel prog _ [] c Hconv eq_refl eq_refl).
  assert (Hid : to_uint c = c) by (unfold to_uint; now apply Z.mod_small).
  rewrite Hid.
  set (on_bus := set_host (Active NODE_STATE_OK)
         (with_channel (Some h)
            (emit [Cout "CANReaderNode::initStateEvent()";
                   CANChannel_new c PSYNC_CAN_OPEN_ALLOW_VIRTUAL;
                   Cout "before psync calls";
                   CANChannel_setBitRate h DATARATE_500K;
                   CANChannel_goOnBus h;
                   Cout "after psync calls"] (started c)))).
  assert (Hinit : host_step (replay h frames) (started c) = on_bus).
  { unfold host_step. cbn [host started].
    now rewrite (initStateEvent_on_bus (replay h frames) (started c) h). }
  assert (Hpolls : steps (replay h frames) (List.length frames) on_bus
                   = emit (flat_map (frame_events h) frames) on_bus).
  { now apply (replay_polls h frames frames 0%nat on_bus). }
  set (final := set_host Finished
         (with_channel None
            (emit [Cout "CANReaderNode::releaseStateEvent()";
                   CANChannel_goOffBus h; CANChannel_delete h]
               (emit (flat_map (frame_events h) frames) on_bus)))).
  assert (Hsteps : steps (replay h frames) (1 + (List.length frames + 2)) (started c)
                   = final).
  { cbn [Nat.add]. rewrite steps_next by reflexivity. rewrite Hinit.
    rewrite steps_add, Hpolls.
    rewrite steps_next by reflexivity.
    assert (Hint : host_step (replay h frames)
                     (emit (flat_map (frame_events h) frames) on_bus)
                   = set_host Releasing
                       (emit (flat_map (frame_events h) frames) on_bus)).
    { unfold host_step. cbn [host emit on_bus set_host].
      assert (Hsig : env_sigint (replay h frames)
                       (trace (emit (flat_map (frame_events h) frames) on_bus))
                     = true).
      { cbn [replay script env_sigint]. rewrite length_map.
        apply Nat.leb_le. unfold reads_so_far.
        cbn [trace emit]. rewrite filter_app, length_app.
        assert (Hcount : forall l, List.length (filter is_read (flat_map (frame_events h) l))
                                   = List.length l).
        { induction l as [|f l IHl]; simpl; [reflexivity|]. now rewrite IHl. }
        rewrite Hcount. lia. }
      now rewrite Hsig. }
    rewrite Hint. cbn [steps]. cbn [terminal host set_host].
    unfold host_step. cbn [host set_host].
    rewrite (releaseStateEvent_held (replay h frames) _ h); reflexivity. }
  rewrite (connectPolySync_steps (replay h frames) (1 + (List.length frames + 2)) fuel);
    [|now rewrite Hsteps|lia].
  rewrite Hsteps. cbn [connectPolySync final set_host host].
  unfold leave_scope.
  rewrite CANReaderNode_delete_null by reflexivity.
  unfold main_catch. reflexivity.
Qed.

(** *** Faults and deletes over the lifecycle *)

Lemma fault_step (env : Env) (st : State) :
  fault_invariant st ->
  terminal (host st) = false ->
  fault_invariant (host_step env st).
Proof.
  intros (Hnone & Hle & Hone) Hterm.
  destruct (_channel (node st)) as [h0|] eqn:Hheld;
    destruct (host st) as [[| |]| | | |] eqn:Hhost; try discriminate;
    first [specialize (Hnone eq_refl) | clear Hnone];
    try specialize (Hone eq_refl);
    unfold host_step; rewrite Hhost; run; rewrite ?Hheld; crunch;
    unfold fault_invariant, settle, set_host; simpl; rewrite ?Hhost; simpl;
    rewrite ?filter_app; simpl; rewrite ?app_nil_r;
    try match goal with
        | H : filter is_fault (trace st) = [] |- _ => rewrite ?H
        end; simpl;
    repeat split; intros; try discriminate; try reflexivity;
    try assumption; try lia.
Qed.

Lemma teardown_step (env : Env) (c : Z) (st : State) :
  lifecycle_invariant c st ->
  teardown_invariant st ->
  terminal (host st) = false ->
  teardown_invariant (host_step env st).
Proof.
  intros (_ & _ & _ & Hh & _) Hdel Hterm.
  unfold handle_invariant in Hh. unfold teardown_invariant in Hdel.
  destruct (_channel (node st)) as [h0|] eqn:Hheld;
    destruct (host st) as [[| |]| | | |] eqn:Hhost;
    try discriminate; try (now destruct Hh);
    unfold host_step; rewrite Hhost; run; rewrite ?Hheld; crunch;
    unfold teardown_invariant, settle, set_host; simpl; rewrite ?Hhost; simpl;
    rewrite ?filter_app, ?Hdel; simpl; try reflexivity.
  split; [reflexivity|]. exists (trace st), h0.
  split; [now rewrite <- !app_assoc|exact Hdel].
Qed.

Lemma reachable_faults_and_deletes (env : Env) (c : Z) (st : State) :
  reachable env (started c) st -> fault_invariant st /\ teardown_invariant st.
Proof.
  induction 1 as [|st st' Hstep Hreach IH].
  - unfold fault_invariant, teardown_invariant. simpl.
    repeat split; auto; discriminate.
  - destruct IH as [Hfault Hdel].
    pose proof (reachable_invariant env c st Hreach) as Hinv.
    destruct Hstep as [st Hterm]. split.
    + now apply fault_step.
    + now apply (teardown_step env c).
Qed.

(** How [connectPolySync] returns tells where the lifecycle stopped. *)
Lemma connectPolySync_result (env : Env) (fuel : nat) :
  forall st r st',
    connectPolySync env fuel st = Some (r, st') ->
    match r with
    | Normal _ => host st' = Finished
    | Raise e => host st' = Escaped e
    | Undefined => host st' = Crashed
    end.
Proof.
  induction fuel as [|fuel IH]; intros st r st'; simpl;
    destruct (host st) eqn:Hhost; try discriminate;
    try (intros [= <- <-]; exact Hhost); apply IH.
Qed.

(** X14.  In the lifecycle of a started node at most one fault is
    activated: none while the node is initializing or polling, exactly one
    once it is in the error state, and none is added afterwards. *)
Theorem lifecycle_activates_one_fault (env : Env) (c : Z) (st : State) :
  reachable env (started c) st ->
  (List.length (filter is_fault (trace st)) <= 1)%nat /\
  (host st = Active NODE_STATE_INIT \/ host st = Active NODE_STATE_OK ->
   filter is_fault (trace st) = []) /\
  (host st = Active NODE_STATE_ERROR ->
   List.length (filter is_fault (trace st)) = 1%nat) /\
  (forall st',
      reachable env st st' ->
      past_polling (host st) = true ->
      filter is_fault (trace st') = filter is_fault (trace st)).
Proof.
  intros Hreach.
  destruct (reachable_faults_and_deletes env c st Hreach)
    as [(Hnone & Hle & Hone) _].
  split; [exact Hle|]. split; [|split; [exact Hone|]].
  - intros [Hhost|Hhost]; apply Hnone; now rewrite Hhost.
  - intros st' Hnext Hpast.
    now destruct (past_polling_reachable env st st' Hnext Hpast) as (_ & _ & Hsame).
Qed.

(** *** How [main] ends *)

Lemma leave_scope_report (env : Env) (r : Result unit) (st : State)
    (ex : exit_status) (tr : list event) :
  teardown_invariant st ->
  (host st = Finished <-> r = Normal tt) ->
  leave_scope env r st = (ex, tr) ->
  releases_safely tr /\ exit_report ex tr.
Proof.
  intros Hdel Hfin. unfold teardown_invariant in Hdel.
  assert (Hcases :
    (r = Normal tt /\ _channel (node st) = None /\
     exists pre h,
       trace st = pre ++ [Cout "CANReaderNode::releaseStateEvent()";
                          CANChannel_goOffBus h; CANChannel_delete h] /\
       filter is_delete pre = []) \/
    (r <> Normal tt /\ filter is_delete (trace st) = [])).
  { destruct (host st) eqn:Hhost.
    5: { right. split; [|exact Hdel]. intros Hr. apply Hfin in Hr. discriminate. }
    3: { left. split; [now apply Hfin|exact Hdel]. }
    all: right; split; [|exact Hdel]; intros Hr; apply Hfin in Hr; discriminate. }
  unfold leave_scope, main_catch.
  destruct Hcases as [(-> & Hnull & pre & h & Htr & Hpre)|[Hr Hnone]].
  - rewrite (CANReaderNode_delete_null env st Hnull). intros [= <- <-].
    rewrite Htr. split.
    + right. exists (pre ++ [Cout "CANReaderNode::releaseStateEvent()"]), h, [].
      rewrite <- app_assoc. simpl. rewrite filter_app, Hpre. auto.
    + left. split; [reflexivity|]. now exists pre, h.
  - assert (Hmsg : forall pre,
              exit_report (Exit 1) (pre ++ invalid_argument_message)).
    { intros pre. right. split; [reflexivity|].
      exists pre. eexists. split; [reflexivity|]. now right. }
    destruct r as [[]|e|]; [now destruct Hr| |].
    2: { intros [= <- <-]. split; [now left|exact I]. }
    destruct (derives_std e).
    2: { intros [= <- <-]. split; [now left|exact I]. }
    destruct (_channel (node st)) as [h|] eqn:Hheld.
    + destruct (env_goOffBus env (trace st) h) as [[]|e'] eqn:Hoff.
      * rewrite (CANReaderNode_delete_held env st h Hheld Hoff).
        intros [= <- <-]. split; [|apply Hmsg]. right.
        exists (trace st), h, invalid_argument_message.
        simpl. rewrite <- !app_assoc. auto.
      * rewrite (CANReaderNode_delete_off_bus_throws env st h e' Hheld Hoff).
        intros [= <- <-]. split; [|exact I]. left.
        simpl. rewrite filter_app, Hnone. reflexivity.
    + rewrite (CANReaderNode_delete_null env st Hheld).
      intros [= <- <-]. split; [|apply Hmsg]. left.
      rewrite filter_app, Hnone. reflexivity.
Qed.

Lemma main_report (env : Env) (fuel : nat) (argv : list string)
    (ex : exit_status) (tr : list event) :
  main env fuel argv = Some (ex, tr) ->
  releases_safely tr /\ exit_report ex tr.
Proof.
  assert (Hcaught : forall e pre ex' tr',
            filter is_delete pre = [] ->
            main_catch (Raise e) pre = (ex', tr') ->
            releases_safely tr' /\ exit_report ex' tr').
  { intros e pre ex' tr' Hpre. unfold main_catch.
    destruct (derives_std e); intros [= <- <-].
    - split.
      + left. rewrite filter_app, Hpre. reflexivity.
      + right. split; [reflexivity|]. exists pre. eexists.
        split; [reflexivity|]. now right.
    - split; [now left|exact I]. }
  unfold main. destruct (1 <? Z.of_nat (List.length argv)).
  2: { intros [= <- <-]. split; [now left|].
       right. split; [reflexivity|]. exists []. eexists.
       split; [reflexivity|]. now left. }
  unfold main_try.
  destruct (stoul (nth 1 argv EmptyString)) as [v|e].
  2: { intros [= Hc]. now apply (Hcaught e [] ex tr). }
  destruct (env_Node env) as [[]|e].
  2: { intros [= Hc]. now apply (Hcaught e [Node_new] ex tr). }
  destruct (setNodeName env "polysync-can-reader-cpp" (constructed (to_uint v)))
    as [r st1] eqn:Hname.
  assert (Hst1 : st1 = started (to_uint v)).
  { revert Hname. run.
    destruct (env_setNodeName env [Node_new] "polysync-can-reader-cpp");
      intros [= _ <-]; reflexivity. }
  subst st1.
  destruct r as [[]|e|].
  - destruct (connectPolySync env fuel (started (to_uint v))) as [[r st2]|] eqn:Hrun;
      [|discriminate].
    intros [= Hleave].
    destruct (connectPolySync_reachable env fuel _ _ _ Hrun) as [Hreach _].
    destruct (reachable_faults_and_deletes env _ _ Hreach) as [_ Hdel].
    pose proof (connectPolySync_result env fuel _ _ _ Hrun) as Hres.
    apply (leave_scope_report env r st2 ex tr Hdel); [|exact Hleave].
    destruct r as [[]|e|]; rewrite Hres; split; try reflexivity; discriminate.
  - intros Hsome.
    assert (Hleave : leave_scope env (Raise e) (started (to_uint v)) = (ex, tr))
      by congruence.
    apply (leave_scope_report env (Raise e) (started (to_uint v)) ex tr);
      [reflexivity| |exact Hleave].
    split; discriminate.
  - intros [= <- <-]. split; [now left|exact I].
Qed.

(** X15.  However a run of [main] ends, it deleted at most one channel,
    and only straight after taking that channel off the bus; after the
    delete no call on a channel is made. *)
Theorem main_releases_safely
    (env : Env) (fuel : nat) (argv : list string) (ex : exit_status) (tr : list event) :
  main env fuel argv = Some (ex, tr) ->
  filter is_delete tr = [] \/
  exists pre h post,
    tr = pre ++ [CANChannel_goOffBus h; CANChannel_delete h] ++ post /\
    filter is_delete pre = [] /\
    filter is_channel_op post = [].
Proof.
  intros Hmain. exact (proj1 (main_report env fuel argv ex tr Hmain)).
Qed.

(** X16.  [main] returns 0 or 1 and nothing else.  It returns 0 only when
    the teardown has completed: the trace ends with the banner of
    [releaseStateEvent], going off bus and the delete.  It returns 1 only
    with a usage message as the last two lines printed: one of the two
    first lines, then the example. *)
Theorem main_exit_codes
    (env : Env) (fuel : nat) (argv : list string) (code : Z) (tr : list event) :
  main env fuel argv = Some (Exit code, tr) ->
  (code = 0 /\
   exists pre h,
     tr = pre ++ [Cout "CANReaderNode::releaseStateEvent()";
                  CANChannel_goOffBus h; CANChannel_delete h]) \/
  (code = 1 /\
   exists pre first,
     tr = pre ++ [Cout first; Cout "For example: polysync-can-reader-cpp 1"] /\
     (first = "Must pass CAN channel argument."%string \/
      first = "Invalid argument. This example requires valid integer input representing a CAN channel."%string)).
Proof.
  intros Hmain. exact (proj2 (main_report env fuel argv (Exit code) tr Hmain)).
Qed.

End Extras.

(** ** The further properties on concrete runs *)

Section ExtraRuns.

#[local] Existing Instance sim_sdk.

Lemma main_runs_channel_of_numeral_run :
  stoul " 7abc" = Returns 7 /\
  main one_frame 5 ["polysync-can-reader-cpp"; " 7abc"]%string
  = match connectPolySync one_frame 5 (started 7) with
    | Some (r, st) => Some (leave_scope one_frame r st)
    | None => None
    end.
Proof.
  assert (Hrange : 0 <= 7 <= ULONG_MAX) by (unfold ULONG_MAX, ULONG_WIDTH; lia).
  exact (main_runs_channel_of_numeral one_frame 5 "polysync-can-reader-cpp"
           " " "abc" [] 7 eq_refl Hrange eq_refl eq_refl eq_refl).
Defined.

Lemma main_channel_wraps_run :
  main one_frame 5 ["polysync-can-reader-cpp"; "4294967299"]%string
  = main one_frame 5 ["polysync-can-reader-cpp"; "3"]%string.
Proof.
  assert (H0 : 0 <= 3) by lia.
  assert (H1 : 0 <= 1) by lia.
  assert (Hmax : 3 + 1 * 2 ^ 32 <= ULONG_MAX)
    by (unfold ULONG_MAX, ULONG_WIDTH; lia).
  exact (main_channel_wraps one_frame 5 "polysync-can-reader-cpp" [] 3 1 H0 H1 Hmax).
Defined.

Lemma main_rejects_numeral_out_of_range_run :
  stoul "18446744073709551616" = Throws (std_out_of_range "stoul") /\
  main one_frame 5 ["polysync-can-reader-cpp"; "18446744073709551616"]%string
  = Some (Exit 1, invalid_argument_message).
Proof.
  assert (Hmax : ULONG_MAX < 18446744073709551616)
    by (unfold ULONG_MAX, ULONG_WIDTH; lia).
  exact (main_rejects_numeral_out_of_range one_frame 5 "polysync-can-reader-cpp"
           "" "" [] 18446744073709551616 eq_refl Hmax eq_refl).
Defined.

Lemma main_runs_channel_of_negative_numeral_run :
  stoul "-2" = Returns 18446744073709551614 /\
  main one_frame 5 ["polysync-can-reader-cpp"; "-2"]%string
  = match connectPolySync one_frame 5 (started 4294967294) with
    | Some (r, st) => Some (leave_scope one_frame r st)
    | None => None
    end.
Proof.
  assert (Hrange : 0 <= 2 <= ULONG_MAX) by (unfold ULONG_MAX, ULONG_WIDTH; lia).
  exact (main_runs_channel_of_negative_numeral one_frame 5 "polysync-can-reader-cpp"
           "" "" [] 2 eq_refl Hrange eq_refl eq_refl eq_refl).
Defined.

Lemma okStateEvent_only_reads_run :
  node (snd (okStateEvent one_frame polling)) = node polling.
Proof.
  exact (proj1 (okStateEvent_only_reads one_frame polling 1%positive eq_refl)).
Defined.

Lemma okStateEvent_passes_other_exceptions_run :
  okStateEvent broken_read polling
  = (Raise (std_exception "read"), emit [CANChannel_read 1%positive] polling) /\
  host (host_step broken_read polling) = Escaped (std_exception "read").
Proof.
  destruct (okStateEvent_passes_other_exceptions broken_read polling 1%positive
              (std_exception "read") eq_refl eq_refl)
    as (Hok & Hhost).
  - discriminate.
  - split; [exact Hok|]. now destruct (Hhost eq_refl eq_refl).
Defined.

Lemma initStateEvent_passes_other_exceptions_run :
  exists st1,
    initStateEvent broken_bit_rate (started 3) = (Raise (std_exception "rate"), st1) /\
    _channel (node st1) = Some 1%positive.
Proof.
  destruct (initStateEvent_passes_other_exceptions broken_bit_rate (started 3)
              1%positive (std_exception "rate") eq_refl)
    as (st1 & Hinit & Hheld & _).
  - discriminate.
  - left. reflexivity.
  - exists st1. split; [exact Hinit|exact Hheld].
Defined.

Lemma failed_teardown_is_retried_run :
  exists st1 st2,
    releaseStateEvent sticky_bus polling = (Raise (DTCException 9 "busy"), st1) /\
    _channel (node st1) = Some 1%positive /\
    CANReaderNode_delete sticky_bus st1 = (Normal tt, st2) /\
    _channel (node st2) = None.
Proof.
  destruct (failed_teardown_is_retried sticky_bus polling 1%positive
              (DTCException 9 "busy") eq_refl eq_refl eq_refl)
    as (st1 & st2 & Hrel & Hheld & _ & Hdel & Hnull & _).
  exists st1, st2. repeat split; assumption.
Defined.

Lemma fatal_read_ends_in_teardown_run :
  connectPolySync bus_off 3 polling
  = Some (Normal tt,
          set_host Finished
            (with_channel None
               (emit [CANChannel_read 1%positive; Cout "bus off";
                      Node_activateFault 9 NODE_STATE_ERROR;
                      Cout "CANReaderNode::errorStateEvent()";
                      Node_disconnectPolySync;
                      Cout "CANReaderNode::releaseStateEvent()";
                      CANChannel_goOffBus 1%positive;
                      CANChannel_delete 1%positive] polling))).
Proof.
  assert (Hdtc : 9 <> DTC_UNAVAILABLE) by discriminate.
  assert (Hfuel : (3 <= 3)%nat) by lia.
  exact (fatal_read_ends_in_teardown bus_off polling 1%positive 9 "bus off" 3
           eq_refl eq_refl eq_refl eq_refl Hdtc eq_refl Hfuel).
Defined.

Lemma main_prints_every_frame_run :
  main (replay 1%positive [frame_0x123; frame_0x123]) 5
       ["polysync-can-reader-cpp"; "3"]%string
  = Some (Exit 0,
          [Node_new; Node_setNodeName "polysync-can-reader-cpp";
           Cout "CANReaderNode::initStateEvent()"; CANChannel_new 3 1;
           Cout "before psync calls"; CANChannel_setBitRate 1%positive 500;
           CANChannel_goOnBus 1%positive; Cout "after psync calls";
           CANChannel_read 1%positive;
           Cout "CAN frame - ID: 0x291"; Cout "DLC: 4";
           CANChannel_read 1%positive;
           Cout "CAN frame - ID: 0x291"; Cout "DLC: 4";
           Cout "CANReaderNode::releaseStateEvent()";
           CANChannel_goOffBus 1%positive; CANChannel_delete 1%positive]).
Proof.
  assert (Hc : 0 <= 3 < 2 ^ UINT_WIDTH) by (unfold UINT_WIDTH; lia).
  assert (Hfuel : (List.length [frame_0x123; frame_0x123] + 3 <= 5)%nat)
    by (simpl; lia).
  exact (main_prints_every_frame 1%positive [frame_0x123; frame_0x123] 3
           "polysync-can-reader-cpp" 5 Hc Hfuel).
Defined.

Lemma lifecycle_activates_one_fault_run :
  host (steps bus_off 2 (started 3)) = Active NODE_STATE_ERROR /\
  List.length (filter is_fault (trace (steps bus_off 2 (started 3)))) = 1%nat.
Proof.
  split; [reflexivity|].
  destruct (lifecycle_activates_one_fault bus_off 3 (steps bus_off 2 (started 3))
              (steps_reachable bus_off 2 (started 3)))
    as (_ & _ & Hone & _).
  apply Hone. reflexivity.
Defined.

Lemma main_releases_safely_run :
  main one_frame 5 ["polysync-can-reader-cpp"; "3"]%string
  = Some (Exit 0, one_frame_trace) /\
  (filter is_delete one_frame_trace = [] \/
   exists pre h post,
     one_frame_trace
     = pre ++ [CANChannel_goOffBus h; CANChannel_delete h] ++ post /\
     filter is_delete pre = [] /\
     filter is_channel_op post = []).
Proof.
  split; [reflexivity|].
  exact (main_releases_safely one_frame 5 ["polysync-can-reader-cpp"; "3"]%string
           (Exit 0) one_frame_trace eq_refl).
Defined.

Lemma main_exit_codes_run :
  (0 = 0 /\
   exists pre h,
     one_frame_trace
     = pre ++ [Cout "CANReaderNode::releaseStateEvent()";
               CANChannel_goOffBus h; CANChannel_delete h]) \/
  (0 = 1 /\
   exists pre first,
     one_frame_trace
     = pre ++ [Cout first; Cout "For example: polysync-can-reader-cpp 1"] /\
     (first = "Must pass CAN channel argument."%string \/
      first = "Invalid argument. This example requires valid integer input representing a CAN channel."%string)).
Proof.
  exact (main_exit_codes one_frame 5 ["polysync-can-reader-cpp"; "3"]%string
           0 one_frame_trace eq_refl).
Defined.

End ExtraRuns.
